(** * Verification of hack/generate_podspec_equal.py

    A shallow embedding of the Go equality-function generator: the
    line-oriented declaration parser ([parse_types]), the emitters
    ([generate_equal_method], [generate_map_equal]) and the breadth-first
    closure and output loop of [main].

    Text is modelled as [string]: a character is a Unicode code point
    below 256, so that a text holding a code point above 255 has no
    counterpart here.  The character classes of the regular expressions
    are those of Python's [re] for [str] patterns on that range.  The
    statements that rest on a character lying outside a class are made
    for ASCII text, where a character and its encoding are the same thing.
    Python dictionaries are [gmap]s, the [seen] set is a [gset], the
    worklist and the visitation order are lists. *)

From Stdlib Require Import Ascii String.
From stdpp Require Import gmap strings list.

(** ** Text primitives *)

Module Text.

Definition tab : string := String "009"%char "".
Definition nl : string := String "010"%char "".
Definition dquote : string := String "034"%char "".

(** [s.startswith(p)] *)
Definition startswith (s p : string) : bool := String.prefix p s.

(** [s[n:]] *)
Fixpoint slice_from (n : nat) (s : string) : string :=
  match n, s with
  | O, _ => s
  | S _, "" => ""
  | S n', String _ r => slice_from n' r
  end.

(** [sep.join(l)] *)
Definition join (sep : string) (l : list string) : string :=
  String.concat sep l.

(** [s.replace("[]", "")]: every non-overlapping occurrence, left to
    right, in one pass. *)
Fixpoint replace_brackets (s : string) : string :=
  match s with
  | "" => ""
  | String c r =>
      match r with
      | String d r' =>
          if (Ascii.eqb c "[" && Ascii.eqb d "]")%char%bool
          then replace_brackets r'
          else String c (replace_brackets r)
      | "" => String c ""
      end
  end.

(** [s.replace("*", "")] *)
Fixpoint replace_star (s : string) : string :=
  match s with
  | "" => ""
  | String c r =>
      if Ascii.eqb c "*"%char then replace_star r
      else String c (replace_star r)
  end.

(** [s.split(sep)] for a one-character separator. *)
Fixpoint split_go (sep : ascii) (cur : string) (s : string) : list string :=
  match s with
  | "" => [String.rev cur]
  | String c r =>
      if Ascii.eqb c sep then String.rev cur :: split_go sep "" r
      else split_go sep (String c cur) r
  end.
Definition split_char (sep : ascii) (s : string) : list string :=
  split_go sep "" s.

(** [s.split('//')[0]]: the text before the first occurrence of "//". *)
Fixpoint before_comment (s : string) : string :=
  match s with
  | "" => ""
  | String c r =>
      match r with
      | String d _ =>
          if (Ascii.eqb c "/" && Ascii.eqb d "/")%char%bool then ""
          else String c (before_comment r)
      | "" => String c ""
      end
  end.

(** Longest prefix of [s] whose characters satisfy [p], and the rest. *)
Fixpoint span (p : ascii → bool) (s : string) : string * string :=
  match s with
  | "" => ("", "")
  | String c r =>
      if p c then let '(a, b) := span p r in (String c a, b)
      else ("", s)
  end.

(** A greedy [cls+]: at least one character of the class. *)
Definition span1 (p : ascii → bool) (s : string) : option (string * string) :=
  match span p s with
  | ("", _) => None
  | (a, b) => Some (a, b)
  end.

(** A literal: [s] with the prefix [p] removed. *)
Fixpoint literal (p s : string) : option string :=
  match p, s with
  | "", _ => Some s
  | String a p', String c r => if Ascii.eqb a c then literal p' r else None
  | String _ _, "" => None
  end.

Definition between (lo hi : nat) (c : ascii) : bool :=
  (lo <=? nat_of_ascii c)%nat && (nat_of_ascii c <=? hi)%nat.

(** [\w] for a [str] pattern: the underscore and the alphanumeric
    characters ([str.isalnum]).  Below 256 these are the ASCII letters and
    digits, the ordinal indicators (170, 186), the superscript digits
    (178, 179, 185), the micro sign (181), the vulgar fractions (188-190)
    and the accented letters (192-255 without the multiplication and
    division signs 215 and 247). *)
Definition is_word (c : ascii) : bool :=
  between 48 57 c || between 65 90 c || between 97 122 c
  || Ascii.eqb c "_"%char
  || between 170 170 c || between 178 179 c || between 181 181 c
  || between 185 186 c || between 188 190 c
  || between 192 214 c || between 216 246 c || between 248 255 c.

(** [\s] for a [str] pattern ([str.isspace]): below 256, the controls
    9-13, the separators 28-31, the space, the next-line control (133)
    and the no-break space (160). *)
Definition is_space (c : ascii) : bool :=
  between 9 13 c || between 28 32 c
  || between 133 133 c || between 160 160 c.

(** [[\w\.]] *)
Definition is_word_or_dot (c : ascii) : bool :=
  is_word c || Ascii.eqb c "."%char.

(** [[^`\s]] *)
Definition is_type_char (c : ascii) : bool :=
  negb (Ascii.eqb c "`"%char) && negb (is_space c).

End Text.

Import Text.

(** Membership tests: [k in d] for a dictionary, [x in l] for a list. *)
Definition in_dict {V} (k : string) (d : gmap string V) : bool :=
  match d !! k with Some _ => true | None => false end.

Definition in_list (x : string) (l : list string) : bool :=
  bool_decide (x ∈ l).

(** ** The override tables, as the module declares them *)

Definition SPECIAL_TYPES : gmap string string :=
  <["metav1.MicroTime" := "Equal"]>
    (<["metav1.Time" := "Equal"]>
       (<["resource.Quantity" := "Equal"]> ∅)).

Definition COMPARABLE_TYPES : list string := ["intstr.IntOrString"].

Definition EXTERNAL_TYPES : list string :=
  ["metav1.ObjectMeta"; "metav1.LabelSelector"; "metav1.OwnerReference";
   "metav1.NamespaceSelector"].

(** ** The patterns of the parser and of the emitter *)

Module Pattern.

(** [^type\s+(\w+)\s+]: common head of both declaration patterns; gives
    the name and what follows the white space. *)
Definition type_head (line : string) : option (string * string) :=
  r0 ← literal "type" line;
  '(_, r1) ← span1 is_space r0;
  '(name, r2) ← span1 is_word r1;
  '(_, r3) ← span1 is_space r2;
  Some (name, r3).

(** [^type\s+(\w+)\s+struct\s+\{] *)
Definition struct_start_re (line : string) : option string :=
  '(name, r3) ← type_head line;
  r4 ← literal "struct" r3;
  '(_, r5) ← span1 is_space r4;
  _ ← literal "{" r5;
  Some name.

(** [map\[([\w\.]+)\]([\w\.]+)], anchored at the start only. *)
Definition inline_map_re (s : string) : option (string * string) :=
  r0 ← literal "map[" s;
  '(key_type, r1) ← span1 is_word_or_dot r0;
  r2 ← literal "]" r1;
  '(val_type, _) ← span1 is_word_or_dot r2;
  Some (key_type, val_type).

(** [^type\s+(\w+)\s+map\[([\w\.]+)\]([\w\.]+)] *)
Definition map_type_re (line : string) : option (string * (string * string)) :=
  '(name, r3) ← type_head line;
  kv ← inline_map_re r3;
  Some (name, kv).

(** [^\s+(\w+)\s+([^`\s]+)] *)
Definition field_re (line : string) : option (string * string) :=
  '(_, r1) ← span1 is_space line;
  '(field_name, r2) ← span1 is_word r1;
  '(_, r3) ← span1 is_space r2;
  '(field_type, _) ← span1 is_type_char r3;
  Some (field_name, field_type).

(** [^\}] *)
Definition end_re (line : string) : bool := startswith line "}".

End Pattern.

(** ** parse_types *)

Abbreviation fields_t := (list (string * string)).
Abbreviation structs_t := (gmap string (list (string * string))).
Abbreviation maps_t := (gmap string (string * string)).

Module Parser.

Record pstate := PState {
  structs : structs_t;
  maps : maps_t;
  current_struct : option string
}.

Definition initial : pstate := PState ∅ ∅ None.

(** One turn of the [for line in lines] loop.  [structs[cur].append(x)]
    is [alter]: the key is present whenever [current_struct] is set
    (lemma [current_struct_declared]). *)
Definition parse_line (st : pstate) (line : string) : pstate :=
  match Pattern.map_type_re line with
  | Some (name, (key_type, val_type)) =>
      PState (structs st) (<[name := (key_type, val_type)]> (maps st))
             (current_struct st)
  | None =>
      match Pattern.struct_start_re line with
      | Some name => PState (<[name := []]> (structs st)) (maps st) (Some name)
      | None =>
          match current_struct st with
          | Some cur =>
              if Pattern.end_re line then PState (structs st) (maps st) None
              else
                let line := before_comment line in
                match Pattern.field_re line with
                | Some (field_name, field_type) =>
                    PState (alter (λ l, l ++ [(field_name, field_type)]) cur
                                  (structs st))
                           (maps st) (Some cur)
                | None => st
                end
          | None => st
          end
      end
  end.

(** The struct being read is a key of [structs]. *)
Definition current_declared (st : pstate) : Prop :=
  ∀ cur, current_struct st = Some cur → is_Some (structs st !! cur).

Definition parse_types (content : string) : structs_t * maps_t :=
  let lines := split_char "010"%char content in
  let st := foldl parse_line initial lines in
  (structs st, maps st).

End Parser.

(** ** generate_equal_method and generate_map_equal *)

Section Emitter.

(** The three override tables are read-only globals of the module; the
    emitters are stated over arbitrary tables and instantiated with the
    declared ones in [main]. *)
Context (SPECIAL : gmap string string) (COMPARABLE EXTERNAL : list string).
Context (all_struct_names : structs_t) (all_maps : maps_t).

Definition ret_false : string := " { return false }".

(** Elements of a slice of pointers (source lines 99-111). *)
Definition ptr_elem_lines (indent a_elem b_elem elem_type : string)
  : list string :=
  let elem_base := slice_from 1 elem_type in
  [ indent +:+ tab +:+ "if (" +:+ a_elem +:+ " == nil) != (" +:+ b_elem
      +:+ " == nil)" +:+ ret_false;
    indent +:+ tab +:+ "if " +:+ a_elem +:+ " != nil {";
    (if in_dict elem_base all_struct_names then
       indent +:+ tab +:+ tab +:+ "if !" +:+ elem_base +:+ "Equal(*"
         +:+ a_elem +:+ ", *" +:+ b_elem +:+ ")" +:+ ret_false
     else match SPECIAL !! elem_base with
          | Some meth =>
              indent +:+ tab +:+ tab +:+ "if !" +:+ a_elem +:+ "." +:+ meth
                +:+ "(*" +:+ b_elem +:+ ")" +:+ ret_false
          | None =>
              if in_list elem_base COMPARABLE then
                indent +:+ tab +:+ tab +:+ "if *" +:+ a_elem +:+ " != *"
                  +:+ b_elem +:+ ret_false
              else
                indent +:+ tab +:+ tab +:+ "if *" +:+ a_elem +:+ " != *"
                  +:+ b_elem +:+ ret_false
          end);
    indent +:+ tab +:+ "}" ].

(** Elements of a slice of values (source lines 112-122). *)
Definition val_elem_lines (indent a_elem b_elem elem_type : string)
  : list string :=
  [ if in_dict elem_type all_struct_names then
      indent +:+ tab +:+ "if !" +:+ elem_type +:+ "Equal(" +:+ a_elem
        +:+ ", " +:+ b_elem +:+ ")" +:+ ret_false
    else match SPECIAL !! elem_type with
         | Some meth =>
             indent +:+ tab +:+ "if !" +:+ a_elem +:+ "." +:+ meth +:+ "("
               +:+ b_elem +:+ ")" +:+ ret_false
         | None =>
             if in_list elem_type COMPARABLE then
               indent +:+ tab +:+ "if " +:+ a_elem +:+ " != " +:+ b_elem
                 +:+ ret_false
             else if in_list elem_type EXTERNAL then
               indent +:+ tab +:+ "if !reflect.DeepEqual(" +:+ a_elem
                 +:+ ", " +:+ b_elem +:+ ")" +:+ ret_false
             else
               indent +:+ tab +:+ "if " +:+ a_elem +:+ " != " +:+ b_elem
                 +:+ ret_false
         end ].

(** The slice branch (source lines 92-124). *)
Definition slice_lines (indent a_val b_val elem_type : string) : list string :=
  let a_elem := a_val +:+ "[i]" in
  let b_elem := b_val +:+ "[i]" in
  [ indent +:+ "if len(" +:+ a_val +:+ ") != len(" +:+ b_val +:+ ")"
      +:+ ret_false;
    indent +:+ "for i := range " +:+ a_val +:+ " {" ]
  ++ (if startswith elem_type "*"
      then ptr_elem_lines indent a_elem b_elem elem_type
      else val_elem_lines indent a_elem b_elem elem_type)
  ++ [ indent +:+ "}" ].

(** The inline-map branch (source lines 126-136). *)
Definition map_lines (indent a_val b_val base_type : string) : list string :=
  match Pattern.inline_map_re base_type with
  | Some (key_type, val_type) =>
      [ indent +:+ "if len(" +:+ a_val +:+ ") != len(" +:+ b_val +:+ ")"
          +:+ ret_false;
        indent +:+ "for k, v := range " +:+ a_val +:+ " {";
        indent +:+ tab +:+ "if v2, ok := " +:+ b_val
          +:+ "[k]; !ok || v != v2" +:+ ret_false;
        indent +:+ "}" ]
  | None =>
      [ indent +:+ "if !reflect.DeepEqual(" +:+ a_val +:+ ", " +:+ b_val
          +:+ ")" +:+ ret_false ]
  end.

(** The scalar branch (source lines 138-151). *)
Definition scalar_lines (indent a_val b_val base_type : string) : list string :=
  [ if in_dict base_type all_maps then
      indent +:+ "if !" +:+ base_type +:+ "Equal(" +:+ a_val +:+ ", "
        +:+ b_val +:+ ")" +:+ ret_false
    else if in_dict base_type all_struct_names then
      indent +:+ "if !" +:+ base_type +:+ "Equal(" +:+ a_val +:+ ", "
        +:+ b_val +:+ ")" +:+ ret_false
    else match SPECIAL !! base_type with
         | Some meth =>
             indent +:+ "if !" +:+ a_val +:+ "." +:+ meth +:+ "(" +:+ b_val
               +:+ ")" +:+ ret_false
         | None =>
             if in_list base_type COMPARABLE then
               indent +:+ "if " +:+ a_val +:+ " != " +:+ b_val +:+ ret_false
             else if in_list base_type EXTERNAL then
               indent +:+ "if !reflect.DeepEqual(" +:+ a_val +:+ ", "
                 +:+ b_val +:+ ")" +:+ ret_false
             else
               indent +:+ "if " +:+ a_val +:+ " != " +:+ b_val +:+ ret_false
         end ].

(** What the loop body appends after the pointer prologue (source lines
    92-151), as a function of the locals it reads. *)
Definition compare_lines (indent a_val b_val base_type : string) : list string :=
  let is_slice := startswith base_type "[]" in
  let elem_type := if is_slice then slice_from 2 base_type else base_type in
  let is_map := startswith base_type "map[" in
  if is_slice then slice_lines indent a_val b_val elem_type
  else if is_map then map_lines indent a_val b_val base_type
  else scalar_lines indent a_val b_val base_type.

(** The body of [for fname, ftype in fields] (source lines 72-154). *)
Definition field_lines (f : string * string) : list string :=
  let '(fname, ftype) := f in
  let is_ptr := startswith ftype "*" in
  let base_type := if is_ptr then slice_from 1 ftype else ftype in
  if is_ptr then
    [ tab +:+ "if (a." +:+ fname +:+ " == nil) != (b." +:+ fname
        +:+ " == nil)" +:+ ret_false;
      tab +:+ "if a." +:+ fname +:+ " != nil {" ]
    ++ compare_lines (tab +:+ tab) ("*a." +:+ fname) ("*b." +:+ fname) base_type
    ++ [ tab +:+ "}" ]
  else
    compare_lines tab ("a." +:+ fname) ("b." +:+ fname) base_type.

Definition func_header (name : string) : string :=
  "func " +:+ name +:+ "Equal(a, b corev1." +:+ name +:+ ") bool {".

Definition equal_method_lines (name : string) (fields : fields_t) : list string :=
  [ func_header name ]
  ++ concat (field_lines <$> fields)
  ++ [ tab +:+ "return true"; "}" ].

Definition generate_equal_method (name : string) (fields : fields_t) : string :=
  join nl (equal_method_lines name fields).

Definition map_equal_lines (name key_type val_type : string) : list string :=
  [ func_header name;
    tab +:+ "if len(a) != len(b)" +:+ ret_false;
    tab +:+ "for k, v := range a {";
    match SPECIAL !! val_type with
    | Some meth =>
        tab +:+ tab +:+ "if v2, ok := b[k]; !ok || !v." +:+ meth +:+ "(v2)"
          +:+ ret_false
    | None =>
        if String.eqb val_type "resource.Quantity" then
          tab +:+ tab +:+ "if v2, ok := b[k]; !ok || !v.Equal(v2)" +:+ ret_false
        else
          tab +:+ tab +:+ "if v2, ok := b[k]; !ok || v != v2" +:+ ret_false
    end;
    tab +:+ "}";
    tab +:+ "return true";
    "}" ].

Definition generate_map_equal (name key_type val_type : string) : string :=
  join nl (map_equal_lines name key_type val_type).

End Emitter.

(** ** The breadth-first closure of main *)

Module Graph.

Record gstate := GState {
  queue : list string;
  seen : gset string;
  ordered : list string
}.

Section Closure.

Context (structs : structs_t) (maps : maps_t).

(** [ftype.replace("[]", "").replace("*", "")] *)
Definition field_base (ftype : string) : string :=
  replace_star (replace_brackets ftype).

(** Body of [for fname, ftype in structs[name]] (source lines 209-217);
    [seen] is not written inside that loop. *)
Definition enqueue_field (seen : gset string) (queue : list string)
    (f : string * string) : list string :=
  let '(fname, ftype) := f in
  let base := field_base ftype in
  if in_dict base maps then
    if bool_decide (base ∉ seen) then queue ++ [base] else queue
  else
    if in_dict base structs && bool_decide (base ∉ seen)
    then queue ++ [base] else queue.

(** Source lines 207-223: what the popped name adds to the worklist. *)
Definition expand (seen : gset string) (queue : list string)
    (name : string) : list string :=
  match structs !! name with
  | Some fields => foldl (enqueue_field seen) queue fields
  | None =>
      match maps !! name with
      | Some (_, val_type) =>
          let base := replace_star val_type in
          if in_dict base structs && bool_decide (base ∉ seen)
          then queue ++ [base] else queue
      | None => queue
      end
  end.

(** One turn of [while queue]; [None] when the worklist is empty. *)
Definition step (st : gstate) : option gstate :=
  match queue st with
  | [] => None
  | name :: rest =>
      if bool_decide (name ∈ seen st) then
        Some (GState rest (seen st) (ordered st))
      else
        let seen' := seen st ∪ {[name]} in
        Some (GState (expand seen' rest name) seen' (ordered st ++ [name]))
  end.

(** The loop, with an explicit bound on the number of turns: [None]
    only when the bound is reached with a non-empty worklist. *)
Fixpoint loop (fuel : nat) (st : gstate) : option (list string) :=
  match step st with
  | None => Some (ordered st)
  | Some st' =>
      match fuel with
      | O => None
      | S fuel' => loop fuel' st'
      end
  end.

Definition start (root : string) : gstate := GState [root] ∅ [].

(** The names popped from the worklist, in order, over at most [fuel]
    turns (a ghost trace of the loop; the loop itself does not keep it). *)
Fixpoint pops (fuel : nat) (st : gstate) : list string :=
  match step st, queue st, fuel with
  | Some st', name :: _, S fuel' => name :: pops fuel' st'
  | _, _, _ => []
  end.

(** The types a name refers to, whether seen or not: the candidates of
    [expand]. *)
Definition field_target (f : string * string) : option string :=
  let base := field_base f.2 in
  if in_dict base maps || in_dict base structs then Some base else None.

Definition targets (name : string) : list string :=
  match structs !! name with
  | Some fields => omap field_target fields
  | None =>
      match maps !! name with
      | Some (_, val_type) =>
          let base := replace_star val_type in
          if in_dict base structs then [base] else []
      | None => []
      end
  end.

Definition refers (x y : string) : Prop := y ∈ targets x.

Definition defined (name : string) : bool :=
  in_dict name structs || in_dict name maps.

(** A bound on the number of turns: every name of the registry, and the
    root, is expanded at most once and pushes at most [fanout] names. *)
Definition fanout : nat :=
  S (list_sum ((λ kv, length kv.2) <$> map_to_list structs)).

Definition universe (root : string) : gset string :=
  {[root]} ∪ dom structs ∪ dom maps.

Definition enough_fuel (root : string) : nat :=
  S (size (universe root) * S fanout).

(** VisitationOrder *)
Definition visitation_order (root : string) : list string :=
  default [] (loop (enough_fuel root) (start root)).

End Closure.

End Graph.

(** ** The output of main *)

Module Generator.

Definition header_lines : list string :=
  [ "// Code generated by hack/generate_podspec_equal.py. DO NOT EDIT.";
    "package workloadmanager";
    "";
    "import (";
    tab +:+ "corev1 " +:+ dquote +:+ "k8s.io/api/core/v1" +:+ dquote;
    tab +:+ dquote +:+ "reflect" +:+ dquote;
    ")";
    "" ].

Section Emission.

Context (SPECIAL : gmap string string) (COMPARABLE EXTERNAL : list string).
Context (structs : structs_t) (maps : maps_t).

(** Body of [for name in ordered] (source lines 235-241): the strings
    it prints. *)
Definition emit_one (name : string) : list string :=
  match structs !! name with
  | Some fields =>
      [ generate_equal_method SPECIAL COMPARABLE EXTERNAL structs maps
          name fields; "" ]
  | None =>
      match maps !! name with
      | Some (k, v) => [ generate_map_equal SPECIAL name k v; "" ]
      | None => []
      end
  end.

(** Every string handed to [print], in order. *)
Definition printed (ordered : list string) : list string :=
  header_lines ++ concat (emit_one <$> ordered).

(** The names for which a function is printed, in output order. *)
Definition emitted_names (ordered : list string) : list string :=
  filter (λ n, Graph.defined structs maps n = true) ordered.

End Emission.

(** [print] writes its argument and a newline. *)
Definition stdout (prints : list string) : string :=
  String.concat "" ((λ s, s +:+ nl) <$> prints).

(** The generator from the text of the declarations on: parse, close
    from [root], emit.  The tables are the module's globals. *)
Definition generate (SPECIAL : gmap string string)
    (COMPARABLE EXTERNAL : list string) (content root : string) : string :=
  let '(structs, maps) := Parser.parse_types content in
  let ordered := Graph.visitation_order structs maps root in
  stdout (printed SPECIAL COMPARABLE EXTERNAL structs maps ordered).

(** [main], after the declarations file has been located and read. *)
Definition main (content : string) : string :=
  generate SPECIAL_TYPES COMPARABLE_TYPES EXTERNAL_TYPES content "PodSpec".

End Generator.

(** ** Vocabulary of the statements *)

Module Trace.

Import Graph.

Section Runs.

Context (structs : structs_t) (maps : maps_t).

(** The names of a list that are not in [seen], in order. *)
Definition unseen (seen : gset string) (l : list string) : list string :=
  filter (λ b, b ∉ seen) l.

(** The states the loop goes through from [start root]. *)
Inductive reachable (root : string) : gstate → Prop :=
| reach_start : reachable root (start root)
| reach_step st st' :
    reachable root st → step structs maps st = Some st' →
    reachable root st'.

(** The names appended to the worklist, in order, over at most [fuel]
    turns: what a turn leaves behind the rest of the old worklist. *)
Fixpoint discovered (fuel : nat) (st : gstate) : list string :=
  match step structs maps st, fuel with
  | Some st', S fuel' =>
      drop (length (queue st) - 1) (queue st') ++ discovered fuel' st'
  | _, _ => []
  end.

(** The decreasing quantity of the loop. *)
Definition measure (root : string) (st : gstate) : nat :=
  size (universe structs maps root ∖ seen st) * S (fanout structs)
  + length (queue st).

(** The invariant of the loop: [seen] is the set of [ordered], which
    has no repetition; the worklist and the order hold the root and
    defined names only, all of them referred to from the root; what a
    seen name refers to is seen or waiting. *)
Record inv (root : string) (st : gstate) : Prop := Inv {
  inv_seen : seen st = list_to_set (ordered st);
  inv_nodup : NoDup (ordered st);
  inv_defined : ∀ x, x ∈ queue st ∨ x ∈ ordered st →
                     x = root ∨ defined structs maps x = true;
  inv_sound : ∀ x, x ∈ queue st ∨ x ∈ ordered st →
                   rtc (refers structs maps) root x;
  inv_closed : ∀ x y, x ∈ seen st → refers structs maps x y →
                      y ∈ seen st ∨ y ∈ queue st;
  inv_root : root ∈ seen st ∨ root ∈ queue st
}.

(** The reading of "enqueued at most once before it is marked seen":
    no state of the loop has a name that is not yet seen twice in the
    worklist. *)
Definition worklist_unique (root : string) : Prop :=
  ∀ st name, reachable root st → name ∉ seen st →
    length (filter (λ x, x = name) (queue st)) ≤ 1.

End Runs.

(** A list without its repetitions, first occurrences kept in order. *)
Definition add_new (acc : list string) (x : string) : list string :=
  if bool_decide (x ∈ acc) then acc else acc ++ [x].

Definition first_occurrences (l : list string) : list string :=
  foldl add_new [] l.

End Trace.

(** ** Inputs of the scenarios *)

Module Scenario.

(** The Pod declaration of the scenario, one field per line as the
    line-oriented parser reads it. *)
Definition pod_text : string :=
  "type Pod struct {" +:+ nl +:+
  tab +:+ "Name string" +:+ nl +:+
  tab +:+ "Labels map[string]string" +:+ nl +:+
  tab +:+ "Owner *Pod" +:+ nl +:+
  "}" +:+ nl.

Definition pod_fields : fields_t :=
  [("Name", "string"); ("Labels", "map[string]string"); ("Owner", "*Pod")].

Definition pod_structs : structs_t := {["Pod" := pod_fields]}.

Definition pod_equal_lines : list string :=
  [ "func PodEqual(a, b corev1.Pod) bool {";
    tab +:+ "if a.Name != b.Name { return false }";
    tab +:+ "if len(a.Labels) != len(b.Labels) { return false }";
    tab +:+ "for k, v := range a.Labels {";
    tab +:+ tab +:+ "if v2, ok := b.Labels[k]; !ok || v != v2 { return false }";
    tab +:+ "}";
    tab +:+ "if (a.Owner == nil) != (b.Owner == nil) { return false }";
    tab +:+ "if a.Owner != nil {";
    tab +:+ tab +:+ "if !PodEqual(*a.Owner, *b.Owner) { return false }";
    tab +:+ "}";
    tab +:+ "return true";
    "}" ].

(** A composite with two fields of one type. *)
Definition twice_structs : structs_t :=
  <["A" := [("X", "B"); ("Y", "B")]]> {["B" := []]}.

(** A map alias, as core/v1 declares ResourceList. *)
Definition alias_maps : maps_t :=
  {["ResourceList" := ("ResourceName", "resource.Quantity")]}.

(** A composite that refers to itself and that [A] does not refer to. *)
Definition island_structs : structs_t :=
  <["A" := []]> {["B" := [("Next", "*B")]]}.

End Scenario.

(** ** The closure over an arbitrary implementation of the seen set

    [seen] is a Python [set] of strings: its layout, and with it its
    iteration order, depends on the hashes of the strings, which differ
    from one run of the interpreter to the next.  The closure is
    written here over any implementation of the two operations that
    [main] uses, [seen.add(name)] and [name in seen]. *)

Module Seen.

Import Graph.

Record seen_set := SeenSet {
  carrier : Type;
  empty_set : carrier;
  add : string → carrier → carrier;
  mem : string → carrier → bool
}.

(** What [main] relies on: membership after [set()] and after [add]. *)
Definition lawful (I : seen_set) : Prop :=
  (∀ x, mem I x (empty_set I) = false)
  ∧ (∀ x y s, mem I x (add I y s) = bool_decide (x = y) || mem I x s).

(** The implementation of the model of [main]. *)
Definition by_gset : seen_set :=
  SeenSet (gset string) ∅ (λ x s, s ∪ {[x]}) (λ x s, bool_decide (x ∈ s)).

(** Lists, the newest member first or last. *)
Definition newest_first : seen_set :=
  SeenSet (list string) [] (λ x s, x :: s) (λ x s, bool_decide (x ∈ s)).

Definition oldest_first : seen_set :=
  SeenSet (list string) [] (λ x s, s ++ [x]) (λ x s, bool_decide (x ∈ s)).

(** A table of buckets under an arbitrary hash function. *)
Definition hashed (hash : string → nat) : seen_set :=
  SeenSet (gmap nat (list string)) ∅
    (λ x s, <[hash x := x :: default [] (s !! hash x)]> s)
    (λ x s, bool_decide (x ∈ default [] (s !! hash x))).

Section Generic.

Context (I : seen_set) (structs : structs_t) (maps : maps_t).

Record wstate := WState {
  wqueue : list string;
  wseen : carrier I;
  wordered : list string
}.

(** Source lines 209-217. *)
Definition enqueue_field_with (seen : carrier I) (queue : list string)
    (f : string * string) : list string :=
  let '(fname, ftype) := f in
  let base := field_base ftype in
  if in_dict base maps then
    if negb (mem I base seen) then queue ++ [base] else queue
  else
    if in_dict base structs && negb (mem I base seen)
    then queue ++ [base] else queue.

(** Source lines 207-223. *)
Definition expand_with (seen : carrier I) (queue : list string)
    (name : string) : list string :=
  match structs !! name with
  | Some fields => foldl (enqueue_field_with seen) queue fields
  | None =>
      match maps !! name with
      | Some (_, val_type) =>
          let base := replace_star val_type in
          if in_dict base structs && negb (mem I base seen)
          then queue ++ [base] else queue
      | None => queue
      end
  end.

(** One turn of [while queue] (source lines 200-223). *)
Definition step_with (st : wstate) : option wstate :=
  match wqueue st with
  | [] => None
  | name :: rest =>
      if mem I name (wseen st) then
        Some (WState rest (wseen st) (wordered st))
      else
        let seen' := add I name (wseen st) in
        Some (WState (expand_with seen' rest name) seen' (wordered st ++ [name]))
  end.

Fixpoint loop_with (fuel : nat) (st : wstate) : option (list string) :=
  match step_with st with
  | None => Some (wordered st)
  | Some st' =>
      match fuel with
      | O => None
      | S fuel' => loop_with fuel' st'
      end
  end.

Definition start_with (root : string) : wstate :=
  WState [root] (empty_set I) [].

Definition visitation_order_with (root : string) : list string :=
  default [] (loop_with (enough_fuel structs maps root) (start_with root)).

(** The states of the two closures that hold the same worklist, the same
    order and the same members of [seen]. *)
Definition same_members (w : wstate) (g : gstate) : Prop :=
  wqueue w = queue g ∧ wordered w = ordered g
  ∧ ∀ x, mem I x (wseen w) = bool_decide (x ∈ seen g).

End Generic.

(** The generator over an implementation of the seen set. *)
Definition generate_with (I : seen_set) (SPECIAL : gmap string string)
    (COMPARABLE EXTERNAL : list string) (content root : string) : string :=
  let '(structs, maps) := Parser.parse_types content in
  let ordered := visitation_order_with I structs maps root in
  Generator.stdout
    (Generator.printed SPECIAL COMPARABLE EXTERNAL structs maps ordered).

End Seen.

(** ** Vocabulary of the further properties *)

Module Shape.

(** Every character of [s] is in the class [p]. *)
Fixpoint all_chars (p : ascii → bool) (s : string) : bool :=
  match s with
  | "" => true
  | String c r => p c && all_chars p r
  end.

(** A non-empty string of characters of the class: what [cls+] consumes. *)
Definition token (p : ascii → bool) (s : string) : bool :=
  match s with
  | "" => false
  | String _ _ => all_chars p s
  end.

(** [s] is empty or starts outside the class: where a greedy [cls+] stops. *)
Definition stops (p : ascii → bool) (s : string) : bool :=
  match s with
  | "" => true
  | String c _ => negb (p c)
  end.

Definition not_newline (c : ascii) : bool := negb (Ascii.eqb c "010"%char).

(** ASCII text: every character is below 128. *)
Definition is_ascii (c : ascii) : bool := (nat_of_ascii c <? 128)%nat.

Definition ascii_text (s : string) : bool := all_chars is_ascii s.

Definition no_slash (c : ascii) : bool := negb (Ascii.eqb c "/"%char).

(** [s] has no occurrence of the comment marker. *)
Fixpoint no_comment (s : string) : bool :=
  match s with
  | "" => true
  | String c r =>
      match r with
      | String d _ =>
          negb (Ascii.eqb c "/" && Ascii.eqb d "/")%char && no_comment r
      | "" => true
      end
  end.

(** Opening minus closing braces. *)
Fixpoint depth (s : string) : Z :=
  match s with
  | "" => 0
  | String c r =>
      ((if Ascii.eqb c "{"%char then 1
        else if Ascii.eqb c "}"%char then -1 else 0) + depth r)%Z
  end.

Definition total_depth (lines : list string) : Z :=
  foldr (λ l acc, (depth l + acc)%Z) 0%Z lines.

(** A composite declaration, one field per line. *)
Definition field_decl (f : string * string) : string :=
  tab +:+ f.1 +:+ " " +:+ f.2.

Definition struct_decl (name : string) (fields : fields_t) : list string :=
  ("type " +:+ name +:+ " struct {") :: (field_decl <$> fields) ++ ["}"].

(** A map-alias declaration. *)
Definition map_decl (name key_type val_type : string) : string :=
  "type " +:+ name +:+ " map[" +:+ key_type +:+ "]" +:+ val_type.

(** What a well-formed field is for the parser: a word, then a type text
    without white space, backquote or comment marker. *)
Definition field_ok (f : string * string) : bool :=
  token is_word f.1 && token is_type_char f.2 && no_comment f.2.

(** The registries hold what the patterns capture. *)
Definition registry_ok (structs : structs_t) (maps : maps_t) : Prop :=
  (∀ name fields, structs !! name = Some fields →
     token is_word name = true
     ∧ ∀ f, f ∈ fields →
         token is_word f.1 = true ∧ token is_type_char f.2 = true)
  ∧ (∀ name k v, maps !! name = Some (k, v) →
       token is_word name = true
       ∧ token is_word_or_dot k = true ∧ token is_word_or_dot v = true).

(** Declarations as the parser reads them, their lines, and the
    registries they stand for (a later declaration of a name replaces an
    earlier one). *)
Inductive decl :=
| Composite (name : string) (fields : fields_t)
| Alias (name key_type val_type : string).

Definition decl_lines (d : decl) : list string :=
  match d with
  | Composite name fields => struct_decl name fields
  | Alias name key_type val_type => [map_decl name key_type val_type]
  end.

Definition decl_ok (d : decl) : bool :=
  match d with
  | Composite name fields => token is_word name && forallb field_ok fields
  | Alias name key_type val_type =>
      token is_word name && token is_word_or_dot key_type
      && token is_word_or_dot val_type
  end.

Definition declare (r : structs_t * maps_t) (d : decl) : structs_t * maps_t :=
  match d with
  | Composite name fields => (<[name := fields]> r.1, r.2)
  | Alias name key_type val_type => (r.1, <[name := (key_type, val_type)]> r.2)
  end.

Definition registry_of (ds : list decl) : structs_t * maps_t :=
  foldl declare (∅, ∅) ds.

(** A composite with a pointer, a slice and an inline map field, and an
    alias. *)
Definition sample_decls : list decl :=
  [ Composite "Pod" [("Name", "string"); ("Owner", "*Pod");
                     ("Items", "[]*Item"); ("Labels", "map[string]string")];
    Composite "Item" [("Limits", "ResourceList")];
    Alias "ResourceList" "ResourceName" "resource.Quantity" ].

Section Callee.

Context (structs : structs_t) (maps : maps_t).

(** The generated function that the comparison of a field calls, read off
    the branches of [generate_equal_method] that emit a call of
    [<type>Equal]. *)
Definition callee (f : string * string) : option string :=
  let ftype := f.2 in
  let base_type := if startswith ftype "*" then slice_from 1 ftype else ftype in
  if startswith base_type "[]" then
    let elem_type := slice_from 2 base_type in
    if startswith elem_type "*" then
      let elem_base := slice_from 1 elem_type in
      if in_dict elem_base structs then Some elem_base else None
    else
      if in_dict elem_type structs then Some elem_type else None
  else if startswith base_type "map[" then None
  else if in_dict base_type maps || in_dict base_type structs
       then Some base_type else None.

End Callee.

(** Reading a call back from an emitted line.  A line calls the generated
    function of [T] when it is made of tabs, [if !], a word that ends
    with [Equal], and an opening parenthesis: [if !<T>Equal(]. *)
Definition is_tab (c : ascii) : bool := Ascii.eqb c "009"%char.

Definition strip_suffix (suffix w : string) : option string :=
  r ← literal (String.rev suffix) (String.rev w);
  Some (String.rev r).

Definition called_after (s : string) : option string :=
  let '(w, r) := span is_word s in
  _ ← literal "(" r;
  strip_suffix "Equal" w.

Definition called (line : string) : option string :=
  let '(_, r0) := span is_tab line in
  r1 ← literal "if !" r0;
  called_after r1.

Section Printed.

Context (SPECIAL : gmap string string) (COMPARABLE EXTERNAL : list string).
Context (structs : structs_t) (maps : maps_t).

(** The lines of the function that the output loop prints for a name
    (source lines 235-241), none for a name without definition. *)
Definition function_lines (name : string) : list string :=
  match structs !! name with
  | Some fields =>
      equal_method_lines SPECIAL COMPARABLE EXTERNAL structs maps name fields
  | None =>
      match maps !! name with
      | Some (k, v) => map_equal_lines SPECIAL name k v
      | None => []
      end
  end.

Definition function_text (name : string) : string :=
  join nl (function_lines name).

(** What the output loop prints on its turns for the name [T]. *)
Definition emitted_for (order : list string) (T : string) : list string :=
  concat (Generator.emit_one SPECIAL COMPARABLE EXTERNAL structs maps
          <$> filter (λ n, n = T) order).

(** The reading of "exactly one function is emitted for a type that
    refers to itself", for every root. *)
Definition self_reference_emitted_once (root : string) : Prop :=
  ∀ T, Graph.refers structs maps T T →
    ∃ text, emitted_for (Graph.visitation_order structs maps root) T
            = [text; ""].

(** The rule set of a field of type [ftype] whose two values are written
    [a] and [b]: the body of the field loop of [generate_equal_method]
    with the operands as parameters ([field_lines] is its instance at
    [a.F] and [b.F], lemma [field_rule_field_lines]). *)
Definition field_rule (indent a b ftype : string) : list string :=
  if startswith ftype "*" then
    [ indent +:+ "if (" +:+ a +:+ " == nil) != (" +:+ b +:+ " == nil)"
        +:+ ret_false;
      indent +:+ "if " +:+ a +:+ " != nil {" ]
    ++ compare_lines SPECIAL COMPARABLE EXTERNAL structs maps
         (indent +:+ tab) ("*" +:+ a) ("*" +:+ b) (slice_from 1 ftype)
    ++ [ indent +:+ "}" ]
  else
    compare_lines SPECIAL COMPARABLE EXTERNAL structs maps indent a b ftype.

(** The reading of "a pointer field compares the dereferenced values by
    the rule set of a field of the underlying type", for a field [fname]
    of type [*ftype]. *)
Definition pointer_uses_base_rule (fname ftype : string) : Prop :=
  field_lines SPECIAL COMPARABLE EXTERNAL structs maps (fname, "*" +:+ ftype)
  = [ tab +:+ "if (a." +:+ fname +:+ " == nil) != (b." +:+ fname
        +:+ " == nil)" +:+ ret_false;
      tab +:+ "if a." +:+ fname +:+ " != nil {" ]
    ++ field_rule (tab +:+ tab) ("*a." +:+ fname) ("*b." +:+ fname) ftype
    ++ [ tab +:+ "}" ].

End Printed.

End Shape.

(** * Facts about the closure and the emission loop *)

(** [k in d] decides membership in the keys. *)
Lemma in_dict_true {V} (k : string) (d : gmap string V) :
  in_dict k d = true ↔ k ∈ dom d.
Proof.
  unfold in_dict. rewrite elem_of_dom.
  destruct (d !! k); split; intros H; try done; by destruct H.
Qed.

Section ClosureFacts.
Import Graph Trace.
Context (structs : structs_t) (maps : maps_t).

Local Abbreviation step := (step structs maps).
Local Abbreviation loop := (loop structs maps).
Local Abbreviation expand := (expand structs maps).
Local Abbreviation targets := (targets structs maps).
Local Abbreviation refers := (refers structs maps).
Local Abbreviation defined := (defined structs maps).
Local Abbreviation reachable := (reachable structs maps).
Local Abbreviation inv := (inv structs maps).

(** [expand] appends to the worklist the unseen targets of the name. *)
Lemma enqueue_field_spec seen q f :
  enqueue_field structs maps seen q f
  = q ++ unseen seen (option_list (field_target structs maps f)).
Proof.
  destruct f as [fname ftype]. unfold enqueue_field, field_target, unseen. simpl.
  destruct (in_dict (field_base ftype) maps); simpl.
  - case_bool_decide; rewrite ?filter_cons_True, ?filter_cons_False, ?filter_nil by tauto;
      simpl; by rewrite ?app_nil_r.
  - destruct (in_dict (field_base ftype) structs); simpl.
    + case_bool_decide; rewrite ?filter_cons_True, ?filter_cons_False, ?filter_nil by tauto;
      simpl; by rewrite ?app_nil_r.
    + by rewrite app_nil_r.
Qed.

Lemma foldl_enqueue_spec seen fields q :
  foldl (enqueue_field structs maps seen) q fields
  = q ++ unseen seen (omap (field_target structs maps) fields).
Proof.
  revert q. induction fields as [|f fields IH]; intros q; simpl.
  - by rewrite app_nil_r.
  - rewrite IH, enqueue_field_spec, <- app_assoc. f_equal.
    unfold unseen. destruct (field_target structs maps f); simpl; [|done].
    rewrite !filter_cons, filter_nil. by destruct (decide _).
Qed.

Lemma expand_spec seen q name :
  expand seen q name = q ++ unseen seen (targets name).
Proof.
  unfold Graph.expand, Graph.targets.
  destruct (structs !! name) as [fields|]; [apply foldl_enqueue_spec|].
  destruct (maps !! name) as [[k v]|]; [|by rewrite app_nil_r].
  destruct (in_dict (replace_star v) structs); simpl; [|by rewrite app_nil_r].
  unfold unseen. rewrite filter_cons, filter_nil.
  case_bool_decide; destruct (decide _); try tauto; by rewrite ?app_nil_r.
Qed.

(** The two outcomes of a turn. *)
Lemma step_inv st st' :
  step st = Some st' →
  ∃ name rest, queue st = name :: rest ∧
    (((name ∈ seen st) ∧ st' = GState rest (seen st) (ordered st)) ∨
     ((name ∉ seen st) ∧
      st' = GState (rest ++ unseen (seen st ∪ {[name]}) (targets name))
                   (seen st ∪ {[name]}) (ordered st ++ [name]))).
Proof.
  unfold Graph.step. destruct (queue st) as [|name rest]; [done|].
  intros H. exists name, rest. split; [done|].
  case_bool_decide; simplify_eq; [left|right]; split; try done.
  by rewrite expand_spec.
Qed.

Lemma step_none st : step st = None ↔ queue st = [].
Proof.
  unfold Graph.step. destruct (queue st); [done|].
  case_bool_decide; split; done.
Qed.

Lemma targets_defined x y : y ∈ targets x → defined y = true.
Proof.
  unfold Graph.targets, Graph.defined.
  destruct (structs !! x) as [fields|].
  - rewrite list_elem_of_omap. intros ([fn ft] & _ & H).
    unfold field_target in H. simpl in H.
    destruct (in_dict (field_base ft) maps) eqn:E1, (in_dict (field_base ft) structs) eqn:E2;
      simpl in H; simplify_eq; rewrite ?E1, ?E2; done.
  - destruct (maps !! x) as [[k v]|]; [|by rewrite elem_of_nil].
    destruct (in_dict (replace_star v) structs) eqn:E; [|by rewrite elem_of_nil].
    rewrite list_elem_of_singleton. intros ->. by rewrite E.
Qed.

Lemma elem_of_unseen seen l x : x ∈ unseen seen l ↔ (x ∉ seen) ∧ x ∈ l.
Proof. unfold unseen. by rewrite list_elem_of_filter. Qed.

Lemma unseen_length seen l : length (unseen seen l) ≤ length l.
Proof. apply length_filter. Qed.

Lemma omap_length {A B} (f : A → option B) (l : list A) :
  length (omap f l) ≤ length l.
Proof. induction l as [|a l IH]; csimpl; [done|]. destruct (f a); csimpl; lia. Qed.

Lemma fields_length_le (l : list (string * fields_t)) k v :
  (k, v) ∈ l → length v ≤ list_sum ((λ kv, length kv.2) <$> l).
Proof.
  induction l as [|[k' v'] l IH]; [by rewrite elem_of_nil|].
  rewrite elem_of_cons. csimpl. intros [E|E]; [simplify_eq; lia|].
  specialize (IH E). lia.
Qed.

Lemma targets_length name : length (targets name) ≤ fanout structs.
Proof.
  unfold Graph.targets, fanout.
  destruct (structs !! name) as [fields|] eqn:E.
  - apply Nat.le_le_succ_r. etrans; [apply omap_length|].
    apply elem_of_map_to_list in E. by eapply fields_length_le.
  - destruct (maps !! name) as [[k v]|]; [|simpl; lia].
    destruct (in_dict _ _); simpl; lia.
Qed.

(** The invariant holds at the start and is kept by every turn. *)
Lemma inv_start root : inv root (start root).
Proof.
  split; simpl.
  - done.
  - constructor.
  - intros x [H|H]; [|by apply elem_of_nil in H].
    apply list_elem_of_singleton in H. by left.
  - intros x [H|H]; [|by apply elem_of_nil in H].
    apply list_elem_of_singleton in H. by subst.
  - intros x y H. by apply not_elem_of_empty in H.
  - right. by apply list_elem_of_singleton.
Qed.

Lemma inv_step root st st' : inv root st → step st = Some st' → inv root st'.
Proof.
  intros [Hs Hn Hd Hr Hc Hroot] Hstep.
  apply step_inv in Hstep as (name & rest & Hq & [[Hin ->]|[Hnin ->]]).
  - split; simpl; try done.
    + intros x [H|H]; apply Hd; [left; rewrite Hq; by right|by right].
    + intros x [H|H]; apply Hr; [left; rewrite Hq; by right|by right].
    + intros x y Hx Hxy. destruct (Hc x y Hx Hxy) as [H|H]; [by left|].
      rewrite Hq in H. apply elem_of_cons in H as [->|H]; [by left|by right].
    + destruct Hroot as [H|H]; [by left|].
      rewrite Hq in H. apply elem_of_cons in H as [->|H]; [by left|by right].
  - assert (Hname : rtc refers root name).
    { apply Hr. left. rewrite Hq. by left. }
    split; simpl.
    + rewrite list_to_set_app_L, Hs. simpl. by rewrite (right_id_L ∅ (∪)).
    + apply NoDup_app. split; [done|]. split; [|apply NoDup_singleton].
      intros x Hx ->%list_elem_of_singleton. apply Hnin. rewrite Hs.
      by apply elem_of_list_to_set.
    + intros x [H|H].
      * apply elem_of_app in H as [H|H].
        { apply Hd. left. rewrite Hq. by right. }
        apply elem_of_unseen in H as [_ H]. right. by eapply targets_defined.
      * apply elem_of_app in H as [H|H]; [apply Hd; by right|].
        apply list_elem_of_singleton in H as ->. apply Hd. left. rewrite Hq. by left.
    + intros x [H|H].
      * apply elem_of_app in H as [H|H].
        { apply Hr. left. rewrite Hq. by right. }
        apply elem_of_unseen in H as [_ H]. by eapply rtc_r.
      * apply elem_of_app in H as [H|H]; [apply Hr; by right|].
        by apply list_elem_of_singleton in H as ->.
    + intros x y Hx Hxy. apply elem_of_union in Hx as [Hx|Hx].
      * destruct (Hc x y Hx Hxy) as [H|H]; [left; apply elem_of_union; by left|].
        rewrite Hq in H. apply elem_of_cons in H as [->|H].
        { left. apply elem_of_union. right. by apply elem_of_singleton. }
        right. apply elem_of_app. by left.
      * apply elem_of_singleton in Hx as ->.
        destruct (decide (y ∈ seen st ∪ {[name]})) as [H|H]; [by left|].
        right. apply elem_of_app. right. by apply elem_of_unseen.
    + destruct Hroot as [H|H]; [left; apply elem_of_union; by left|].
      rewrite Hq in H. apply elem_of_cons in H as [->|H].
      { left. apply elem_of_union. right. by apply elem_of_singleton. }
      right. apply elem_of_app. by left.
Qed.

Lemma reachable_inv root st : reachable root st → inv root st.
Proof. induction 1; eauto using inv_start, inv_step. Qed.


(** Every turn decreases the measure, so the loop returns. *)
Lemma measure_step root st st' :
  inv root st → step st = Some st' → measure structs maps root st' < measure structs maps root st.
Proof.
  intros Hinv Hstep.
  apply step_inv in Hstep as (name & rest & Hq & [[Hin ->]|[Hnin ->]]);
    unfold measure; simpl; rewrite Hq; simpl; [lia|].
  assert (HU : name ∈ universe structs maps root).
  { destruct (inv_defined _ _ _ _ Hinv name) as [->|Hd].
    - left. rewrite Hq. by left.
    - unfold universe. apply elem_of_union. left. apply elem_of_union. left.
      by apply elem_of_singleton.
    - unfold universe. apply orb_true_iff in Hd as [Hd|Hd];
        apply in_dict_true in Hd.
      + apply elem_of_union. left. apply elem_of_union. by right.
      + apply elem_of_union. by right. }
  assert (Hsz : size (universe structs maps root ∖ seen st)
                = S (size (universe structs maps root ∖ (seen st ∪ {[name]})))).
  { replace (universe structs maps root ∖ seen st)
      with ({[name]} ∪ universe structs maps root ∖ (seen st ∪ {[name]})).
    - rewrite size_union, size_singleton; [done|].
      intros x Hx%elem_of_singleton Hx'%elem_of_difference. subst x.
      destruct Hx' as [_ Hx']. apply Hx', elem_of_union. right.
      by apply elem_of_singleton.
    - apply set_eq. intros x. rewrite elem_of_union, !elem_of_difference,
        elem_of_union, elem_of_singleton.
      destruct (decide (x = name)) as [->|Hne]; [|tauto].
      split; [by intros _|intros _; by left]. }
  rewrite Hsz, length_app.
  pose proof (unseen_length (seen st ∪ {[name]}) (targets name)).
  pose proof (targets_length name). lia.
Qed.

Lemma loop_enough root fuel st :
  inv root st → measure structs maps root st ≤ fuel → is_Some (loop fuel st).
Proof.
  revert st. induction fuel as [|fuel IH]; intros st Hinv Hm.
  - assert (queue st = []) as Hq.
    { unfold measure in Hm. apply length_zero_iff_nil. lia. }
    apply step_none in Hq. simpl. by rewrite Hq.
  - simpl. destruct (step st) as [st'|] eqn:Hstep; [|done].
    apply IH; [by eapply inv_step|].
    pose proof (measure_step _ _ _ Hinv Hstep). lia.
Qed.

Lemma loop_mono fuel fuel' st o :
  loop fuel st = Some o → fuel ≤ fuel' → loop fuel' st = Some o.
Proof.
  revert fuel' st. induction fuel as [|fuel IH]; intros fuel' st; simpl.
  - destruct (step st) eqn:E; [done|]. intros <- _.
    destruct fuel'; simpl; by rewrite E.
  - destruct (step st) as [st'|] eqn:E.
    + intros H Hle. destruct fuel' as [|fuel']; [lia|]. simpl. rewrite E.
      apply IH; [done|lia].
    + intros <- _. destruct fuel'; simpl; by rewrite E.
Qed.

Lemma loop_final root fuel st o :
  reachable root st → loop fuel st = Some o →
  ∃ stf, reachable root stf ∧ queue stf = [] ∧ ordered stf = o.
Proof.
  revert st. induction fuel as [|fuel IH]; intros st Hr; simpl.
  - destruct (step st) eqn:E; [done|]. intros [= <-].
    exists st. by apply step_none in E.
  - destruct (step st) as [st'|] eqn:E.
    + apply IH. by eapply reach_step.
    + intros [= <-]. exists st. by apply step_none in E.
Qed.

Lemma measure_start root :
  measure structs maps root (start root) = enough_fuel structs maps root.
Proof.
  unfold measure, enough_fuel. simpl. rewrite difference_empty_L. lia.
Qed.

Lemma visitation_order_run root :
  loop (enough_fuel structs maps root) (start root)
  = Some (visitation_order structs maps root).
Proof.
  unfold visitation_order.
  destruct (loop_enough root (enough_fuel structs maps root) (start root))
    as [o Ho]; [apply inv_start|by rewrite measure_start|].
  by rewrite Ho.
Qed.

Lemma visitation_order_final root :
  ∃ stf, reachable root stf ∧ queue stf = []
         ∧ ordered stf = visitation_order structs maps root.
Proof. eapply loop_final; [apply reach_start|apply visitation_order_run]. Qed.

Lemma closed_reaches root stf x :
  inv root stf → queue stf = [] → rtc refers root x → x ∈ ordered stf.
Proof.
  intros Hinv Hq Hx.
  assert (x ∈ seen stf) as H.
  { revert x Hx. apply rtc_ind_r.
    - destruct (inv_root _ _ _ _ Hinv) as [H|H]; [done|].
      rewrite Hq in H. by apply elem_of_nil in H.
    - intros y z _ Hyz IH.
      destruct (inv_closed _ _ _ _ Hinv y z IH Hyz) as [H|H]; [done|].
      rewrite Hq in H. by apply elem_of_nil in H. }
  rewrite (inv_seen _ _ _ _ Hinv) in H. by apply elem_of_list_to_set in H.
Qed.

(** The order is the first occurrences of the names popped, and the names
    popped are the names put on the worklist, in that order. *)
Lemma pops_fold root fuel st o :
  inv root st → loop fuel st = Some o →
  o = foldl add_new (ordered st) (pops structs maps fuel st).
Proof.
  revert st. induction fuel as [|fuel IH]; intros st Hinv; simpl.
  - destruct (step st) eqn:E; [done|]. by intros [= <-].
  - destruct (step st) as [st'|] eqn:E; [|by intros [= <-]].
    intros Hl. pose proof (inv_step _ _ _ Hinv E) as Hinv'.
    specialize (IH _ Hinv' Hl).
    apply step_inv in E as (name & rest & Hq & Hcase). rewrite Hq. simpl.
    rewrite IH. f_equal. unfold add_new.
    destruct Hcase as [[Hin ->]|[Hnin ->]]; simpl.
    + rewrite bool_decide_eq_true_2; [done|].
      rewrite (inv_seen _ _ _ _ Hinv) in Hin. by apply elem_of_list_to_set in Hin.
    + rewrite bool_decide_eq_false_2; [done|].
      intros H. apply Hnin. rewrite (inv_seen _ _ _ _ Hinv).
      by apply elem_of_list_to_set.
Qed.

Lemma pops_discovered fuel st o :
  loop fuel st = Some o →
  pops structs maps fuel st = queue st ++ discovered structs maps fuel st.
Proof.
  revert st. induction fuel as [|fuel IH]; intros st; simpl.
  - destruct (step st) eqn:E; [done|]. intros _.
    apply step_none in E. by rewrite E.
  - destruct (step st) as [st'|] eqn:E.
    + intros Hl. rewrite (IH _ Hl).
      apply step_inv in E as (name & rest & Hq & Hcase). rewrite Hq. simpl.
      rewrite Nat.sub_0_r. f_equal.
      destruct Hcase as [[Hin ->]|[Hnin ->]]; simpl.
      * by rewrite drop_all.
      * by rewrite drop_app_length, <- app_assoc.
    + intros _. apply step_none in E. by rewrite E.
Qed.

Lemma filter_eq_absent (l : list string) x :
  x ∉ l → filter (λ y, y = x) l = [].
Proof.
  induction l as [|y l IH]; [done|].
  rewrite not_elem_of_cons, filter_cons. intros [Hne Hx].
  rewrite decide_False by done. by apply IH.
Qed.

Lemma filter_eq_nodup (l : list string) x :
  NoDup l → x ∈ l → length (filter (λ y, y = x) l) = 1.
Proof.
  induction 1 as [|y l Hy Hl IH]; [by rewrite elem_of_nil|].
  rewrite elem_of_cons, filter_cons. intros [->|Hx].
  - rewrite decide_True by done. simpl. by rewrite filter_eq_absent.
  - rewrite decide_False; [by apply IH|]. intros ->. done.
Qed.

Lemma visitation_order_inv root :
  ∃ stf, inv root stf ∧ queue stf = []
         ∧ ordered stf = visitation_order structs maps root.
Proof.
  destruct (visitation_order_final root) as (stf & Hr & Hq & Ho).
  exists stf. eauto using reachable_inv.
Qed.

Lemma visitation_order_nodup root : NoDup (visitation_order structs maps root).
Proof.
  destruct (visitation_order_inv root) as (stf & Hinv & _ & <-).
  apply (inv_nodup _ _ _ _ Hinv).
Qed.

Lemma visitation_order_reach root x :
  x ∈ visitation_order structs maps root ↔ rtc refers root x.
Proof.
  destruct (visitation_order_inv root) as (stf & Hinv & Hq & <-). split.
  - intros H. apply (inv_sound _ _ _ _ Hinv). by right.
  - by apply closed_reaches.
Qed.

Lemma visitation_order_defined root x :
  x ∈ visitation_order structs maps root → x = root ∨ defined x = true.
Proof.
  destruct (visitation_order_inv root) as (stf & Hinv & Hq & <-).
  intros H. apply (inv_defined _ _ _ _ Hinv). by right.
Qed.

Lemma visitation_order_discovered root :
  visitation_order structs maps root
  = first_occurrences
      (root :: discovered structs maps (enough_fuel structs maps root) (start root)).
Proof.
  pose proof (visitation_order_run root) as Hrun.
  rewrite (pops_fold root _ _ _ (inv_start root) Hrun).
  by rewrite (pops_discovered _ _ _ Hrun).
Qed.

Lemma loop_deterministic root fuel o :
  loop fuel (start root) = Some o → o = visitation_order structs maps root.
Proof.
  intros H. pose proof (visitation_order_run root) as Hrun.
  destruct (Nat.le_ge_cases fuel (enough_fuel structs maps root)) as [Hle|Hle].
  - apply (loop_mono _ _ _ _ H) in Hle. congruence.
  - apply (loop_mono _ _ _ _ Hrun) in Hle. congruence.
Qed.

Section Emission.
Context (SPECIAL : gmap string string) (COMPARABLE EXTERNAL : list string).
Local Abbreviation emit_one :=
  (Generator.emit_one SPECIAL COMPARABLE EXTERNAL structs maps).

Lemma emit_one_undefined name : defined name = false → emit_one name = [].
Proof.
  unfold Graph.defined, in_dict, Generator.emit_one.
  destruct (structs !! name); [done|]. by destruct (maps !! name) as [[??]|].
Qed.

Lemma emit_one_defined name :
  defined name = true → ∃ text, emit_one name = [text; ""].
Proof.
  unfold Graph.defined, in_dict, Generator.emit_one.
  destruct (structs !! name); [eauto|].
  destruct (maps !! name) as [[??]|]; [eauto|done].
Qed.

Lemma printed_emitted l :
  Generator.printed SPECIAL COMPARABLE EXTERNAL structs maps l
  = Generator.header_lines
    ++ concat (emit_one <$> Generator.emitted_names structs maps l).
Proof.
  unfold Generator.printed, Generator.emitted_names. f_equal.
  induction l as [|n l IH]; [done|].
  rewrite filter_cons. csimpl. rewrite IH.
  destruct (decide (defined n = true)) as [H|H]; [done|].
  apply not_true_is_false in H. by rewrite emit_one_undefined.
Qed.
End Emission.

End ClosureFacts.

(** * Facts about the parser *)

Section ParserFacts.
Import Parser.

Lemma parse_line_declared st line :
  current_declared st → current_declared (parse_line st line).
Proof.
  intros Hst cur. unfold parse_line.
  destruct (Pattern.map_type_re line) as [[name [k v]]|]; [by apply Hst|].
  destruct (Pattern.struct_start_re line) as [name|]; simpl.
  { intros [= ->]. rewrite lookup_insert_eq. eauto. }
  destruct (current_struct st) as [c|] eqn:Hc; [|by rewrite Hc].
  destruct (Pattern.end_re line); [done|].
  destruct (Pattern.field_re (before_comment line)) as [[fn ft]|]; simpl.
  - intros [= <-]. rewrite lookup_alter_eq.
    destruct (Hst c Hc) as [l ->]. simpl. eauto.
  - rewrite Hc. intros [= <-]. by apply Hst.
Qed.

(** [structs[current_struct]] never raises. *)
Lemma current_struct_declared lines :
  current_declared (foldl parse_line initial lines).
Proof.
  assert (∀ st, current_declared st → current_declared (foldl parse_line st lines)) as H.
  { induction lines as [|l lines IH]; intros st Hst; [done|].
    simpl. apply IH. by apply parse_line_declared. }
  apply H. intros cur. discriminate.
Qed.
End ParserFacts.


Import Graph Trace Scenario Shape.

(** * The claims about the breadth-first closure *)

Section ClosureClaims.

Import Graph Trace.
Context (structs : structs_t) (maps : maps_t) (root : string).

(** C6, as amended. A turn of the loop takes the head of the worklist
    and appends names at its end; it appends only names that are not
    marked seen; a popped name that is already seen is dropped and
    changes nothing else; a popped name that is not yet seen is marked
    and appended to the order, which never holds a name twice. *)
Theorem worklist_guarded_by_seen (st st' : gstate) :
  reachable structs maps root st → step structs maps st = Some st' →
  ∃ name rest new,
    queue st = name :: rest ∧ queue st' = rest ++ new
    ∧ (∀ x, x ∈ new → x ∉ seen st')
    ∧ (name ∈ seen st →
         new = [] ∧ seen st' = seen st ∧ ordered st' = ordered st)
    ∧ (name ∉ seen st →
         seen st' = seen st ∪ {[name]} ∧ ordered st' = ordered st ++ [name])
    ∧ NoDup (ordered st').
Proof.
  intros Hr Hstep.
  pose proof (inv_nodup _ _ _ _ (reachable_inv _ _ _ _ (reach_step _ _ _ _ _ Hr Hstep))) as Hnd.
  apply step_inv in Hstep as (name & rest & Hq & [[Hin ->]|[Hnin ->]]).
  - exists name, rest, []. simpl in *. rewrite app_nil_r.
    split_and!; try done. by intros x ?%elem_of_nil.
  - exists name, rest, (unseen (seen st ∪ {[name]}) (targets structs maps name)).
    simpl in *. split_and!; try done.
    intros x Hx. by apply elem_of_unseen in Hx as [Hx _].
Qed.

(** C9. The closure returns for every input.  When a name without a
    definition is popped while not yet seen, it is marked seen and
    appended to the order, and nothing is put on the worklist; the
    output loop prints nothing for it, so that the output is the one
    without that name. *)
Theorem undefined_name_visited_not_emitted
    (SPECIAL : gmap string string) (COMPARABLE EXTERNAL : list string) :
  (∃ order, loop structs maps (enough_fuel structs maps root) (start root)
            = Some order)
  ∧ (∀ st name rest,
       queue st = name :: rest → name ∉ seen st →
       defined structs maps name = false →
       step structs maps st
       = Some (GState rest (seen st ∪ {[name]}) (ordered st ++ [name])))
  ∧ (∀ name, defined structs maps name = false →
       Generator.emit_one SPECIAL COMPARABLE EXTERNAL structs maps name = [])
  ∧ (∀ name l1 l2, defined structs maps name = false →
       Generator.printed SPECIAL COMPARABLE EXTERNAL structs maps (l1 ++ name :: l2)
       = Generator.printed SPECIAL COMPARABLE EXTERNAL structs maps (l1 ++ l2)).
Proof.
  split_and!.
  - eexists. apply visitation_order_run.
  - intros st name rest Hq Hnin Hd. unfold step. rewrite Hq.
    rewrite bool_decide_eq_false_2 by done. do 2 f_equal.
    unfold defined, in_dict in Hd. unfold expand.
    destruct (structs !! name); [done|]. by destruct (maps !! name) as [[??]|].
  - apply emit_one_undefined.
  - intros name l1 l2 Hd. unfold Generator.printed. f_equal.
    rewrite !fmap_app, !concat_app. f_equal. csimpl.
    by rewrite emit_one_undefined.
Qed.

(** C10. Only defined names are ever put on the worklist: in every state
    of the loop, and in VisitationOrder, every name other than the root
    is a key of the composite map or of the map-alias map. *)
Theorem only_root_may_lack_definition :
  (∀ seen q name x, x ∈ expand structs maps seen q name →
     x ∈ q ∨ in_dict x structs = true ∨ in_dict x maps = true)
  ∧ (∀ st x, reachable structs maps root st →
       x ∈ queue st ∨ x ∈ ordered st → x ≠ root →
       in_dict x structs = true ∨ in_dict x maps = true)
  ∧ (∀ x, x ∈ visitation_order structs maps root → x ≠ root →
       in_dict x structs = true ∨ in_dict x maps = true).
Proof.
  split_and!.
  - intros seen q name x. rewrite expand_spec, elem_of_app, elem_of_unseen.
    intros [H|[_ H]]; [by left|right].
    apply targets_defined in H. by apply orb_true_iff in H.
  - intros st x Hr Hx Hne.
    destruct (inv_defined _ _ _ _ (reachable_inv _ _ _ _ Hr) x Hx) as [->|H];
      [done|by apply orb_true_iff in H].
  - intros x Hx Hne.
    destruct (visitation_order_defined _ _ _ _ Hx) as [->|H];
      [done|by apply orb_true_iff in H].
Qed.

End ClosureClaims.

(** The first turn on [twice_structs] from [A]. *)
Lemma twice_first_turn :
  step twice_structs ∅ (start "A")
  = Some (GState ["B"; "B"] (∅ ∪ {["A"]}) ["A"]).
Proof. vm_compute. reflexivity. Qed.

Lemma B_unseen : "B" ∉ (∅ ∪ {["A"]} : gset string).
Proof.
  rewrite elem_of_union, elem_of_singleton.
  intros [H|H]; [by apply not_elem_of_empty in H|discriminate].
Qed.

(** C6, as stated, fails: after the first turn on a composite [A] with
    two fields of type [B], the worklist is [B; B] and [B] is not seen. *)
Lemma worklist_holds_unseen_name_twice :
  ¬ worklist_unique twice_structs ∅ "A".
Proof.
  intros H.
  specialize (H (GState ["B"; "B"] (∅ ∪ {["A"]}) ["A"]) "B").
  assert (2 ≤ 1) as Hle; [|lia].
  apply H; [|apply B_unseen].
  eapply reach_step; [apply reach_start|apply twice_first_turn].
Qed.

(** The amended C6 at the first turn on [twice_structs]. *)
Lemma worklist_guarded_by_seen_witness :
  ∃ name rest new,
    [ "A" ] = name :: rest ∧ ["B"; "B"] = rest ++ new
    ∧ (∀ x, x ∈ new → x ∉ (∅ ∪ {["A"]} : gset string))
    ∧ (name ∈ (∅ : gset string) →
         new = [] ∧ (∅ ∪ {["A"]} : gset string) = ∅ ∧ ["A"] = [])
    ∧ (name ∉ (∅ : gset string) →
         (∅ ∪ {["A"]} : gset string) = ∅ ∪ {[name]} ∧ ["A"] = [] ++ [name])
    ∧ NoDup ["A"].
Proof.
  exact (worklist_guarded_by_seen twice_structs ∅ "A" (start "A")
           (GState ["B"; "B"] (∅ ∪ {["A"]}) ["A"])
           (reach_start twice_structs ∅ "A") twice_first_turn).
Defined.

(** * The claims about the emitted comparisons *)

Local Abbreviation emit_lines :=
  (equal_method_lines SPECIAL_TYPES COMPARABLE_TYPES EXTERNAL_TYPES).

(** C1, at the failing input. An inline map whose value type has a
    registered equality method is compared entry by entry with [!=]: the
    count check and the key lookup are emitted, the method is not.  The
    function of a map alias with the same value type calls the method. *)
Theorem inline_map_values_compared_natively :
  emit_lines ∅ ∅ "Box" [("Limits", "map[string]resource.Quantity")]
  = [ "func BoxEqual(a, b corev1.Box) bool {";
      tab +:+ "if len(a.Limits) != len(b.Limits) { return false }";
      tab +:+ "for k, v := range a.Limits {";
      tab +:+ tab +:+ "if v2, ok := b.Limits[k]; !ok || v != v2 { return false }";
      tab +:+ "}";
      tab +:+ "return true";
      "}" ]
  ∧ map_equal_lines SPECIAL_TYPES "ResourceList" "ResourceName" "resource.Quantity"
    = [ "func ResourceListEqual(a, b corev1.ResourceList) bool {";
        tab +:+ "if len(a) != len(b) { return false }";
        tab +:+ "for k, v := range a {";
        tab +:+ tab +:+ "if v2, ok := b[k]; !ok || !v.Equal(v2) { return false }";
        tab +:+ "}";
        tab +:+ "return true";
        "}" ].
Proof. split; vm_compute; reflexivity. Qed.

(** C2, at the failing input. The elements of a slice of pointers to an
    external-opaque type are compared with [!=] on the dereferenced
    values; the elements of a slice of values of the same type are
    compared with [reflect.DeepEqual]. *)
Theorem external_pointer_elements_compared_natively :
  emit_lines ∅ ∅ "Meta" [("Owners", "[]*metav1.OwnerReference")]
  = [ "func MetaEqual(a, b corev1.Meta) bool {";
      tab +:+ "if len(a.Owners) != len(b.Owners) { return false }";
      tab +:+ "for i := range a.Owners {";
      tab +:+ tab +:+ "if (a.Owners[i] == nil) != (b.Owners[i] == nil) { return false }";
      tab +:+ tab +:+ "if a.Owners[i] != nil {";
      tab +:+ tab +:+ tab +:+ "if *a.Owners[i] != *b.Owners[i] { return false }";
      tab +:+ tab +:+ "}";
      tab +:+ "}";
      tab +:+ "return true";
      "}" ]
  ∧ emit_lines ∅ ∅ "Meta" [("Owners", "[]metav1.OwnerReference")]
    = [ "func MetaEqual(a, b corev1.Meta) bool {";
        tab +:+ "if len(a.Owners) != len(b.Owners) { return false }";
        tab +:+ "for i := range a.Owners {";
        tab +:+ tab +:+ "if !reflect.DeepEqual(a.Owners[i], b.Owners[i]) { return false }";
        tab +:+ "}";
        tab +:+ "return true";
        "}" ].
Proof. split; vm_compute; reflexivity. Qed.

(** C3, at the failing input. The elements of a slice of a map alias are
    compared with [!=], the default, although the alias has a generated
    function, which the closure puts in the order and a plain field of the
    alias type calls. *)
Theorem alias_elements_compared_natively :
  emit_lines {["Box" := [("Lists", "[]ResourceList")]]} alias_maps "Box"
    [("Lists", "[]ResourceList")]
  = [ "func BoxEqual(a, b corev1.Box) bool {";
      tab +:+ "if len(a.Lists) != len(b.Lists) { return false }";
      tab +:+ "for i := range a.Lists {";
      tab +:+ tab +:+ "if a.Lists[i] != b.Lists[i] { return false }";
      tab +:+ "}";
      tab +:+ "return true";
      "}" ]
  ∧ emit_lines {["Box" := [("Lists", "[]ResourceList")]]} alias_maps "Box"
      [("List", "ResourceList")]
    = [ "func BoxEqual(a, b corev1.Box) bool {";
        tab +:+ "if !ResourceListEqual(a.List, b.List) { return false }";
        tab +:+ "return true";
        "}" ]
  ∧ visitation_order {["Box" := [("Lists", "[]ResourceList")]]} alias_maps "Box"
    = ["Box"; "ResourceList"].
Proof. split_and!; vm_compute; reflexivity. Qed.

Section EmitterClaims.

Context (SPECIAL : gmap string string) (COMPARABLE EXTERNAL : list string).
Context (structs : structs_t) (maps : maps_t).

Local Abbreviation emit_field :=
  (field_lines SPECIAL COMPARABLE EXTERNAL structs maps).
Local Abbreviation emit_compare :=
  (compare_lines SPECIAL COMPARABLE EXTERNAL structs maps).

(** Where an external-opaque name is classified as such: a plain field,
    a pointer field and the elements of a slice of values are compared
    with [reflect.DeepEqual] when no earlier category holds the name. *)
Lemma external_deep_equal (indent a_val b_val base : string) :
  in_dict base maps = false → in_dict base structs = false →
  SPECIAL !! base = None → in_list base COMPARABLE = false →
  in_list base EXTERNAL = true →
  scalar_lines SPECIAL COMPARABLE EXTERNAL structs maps indent a_val b_val base
  = [ indent +:+ "if !reflect.DeepEqual(" +:+ a_val +:+ ", " +:+ b_val
        +:+ ")" +:+ ret_false ]
  ∧ val_elem_lines SPECIAL COMPARABLE EXTERNAL structs indent a_val b_val base
    = [ indent +:+ tab +:+ "if !reflect.DeepEqual(" +:+ a_val +:+ ", "
          +:+ b_val +:+ ")" +:+ ret_false ].
Proof.
  intros Hm Hs Hsp Hc He. unfold scalar_lines, val_elem_lines.
  by rewrite Hm, Hs, Hsp, Hc, He.
Qed.

(** String concatenation is associative. *)
Lemma append_assoc (s1 s2 s3 : string) : (s1 +:+ s2) +:+ s3 = s1 +:+ s2 +:+ s3.
Proof.
  induction s1 as [|c s1 IH]; [done|].
  change (String c ((s1 +:+ s2) +:+ s3) = String c (s1 +:+ s2 +:+ s3)).
  by rewrite IH.
Qed.

(** Every line of a comparison starts with the indentation it was asked
    for: one level deeper is one more tab in front of each line. *)
Lemma compare_lines_indent (indent a_val b_val base : string) :
  emit_compare (tab +:+ indent) a_val b_val base
  = (λ l, tab +:+ l) <$> emit_compare indent a_val b_val base.
Proof.
  unfold compare_lines, slice_lines, ptr_elem_lines, val_elem_lines, map_lines,
    scalar_lines.
  repeat case_match; csimpl; by rewrite ?append_assoc.
Qed.

(** A field whose type text is a pointer marker followed by a
    non-pointer type [base] is emitted as the nil-symmetry test on the
    two pointers, then, under [if a.F != nil], the very lines that the
    emitter produces for a field of type [base], with [*a.F] and [*b.F]
    pasted as operands and one tab more in front of each line. *)
Lemma pointer_field_lines_of_base (fname base : string) :
  startswith base "*" = false →
  emit_field (fname, "*" +:+ base)
  = [ tab +:+ "if (a." +:+ fname +:+ " == nil) != (b." +:+ fname
        +:+ " == nil) { return false }";
      tab +:+ "if a." +:+ fname +:+ " != nil {" ]
    ++ ((λ l, tab +:+ l)
        <$> emit_compare tab ("*a." +:+ fname) ("*b." +:+ fname) base)
    ++ [ tab +:+ "}" ]
  ∧ emit_field (fname, base)
    = emit_compare tab ("a." +:+ fname) ("b." +:+ fname) base.
Proof.
  intros Hbase. unfold field_lines. rewrite Hbase. split; [|done].
  change ("*" +:+ base) with (String "*" base).
  assert (startswith (String "*" base) "*" = true) as ->.
  { unfold startswith. simpl. by destruct base. }
  by rewrite compare_lines_indent.
Qed.

(** [field_lines] is the rule set of a field at the operands [a.F] and
    [b.F]. *)
Lemma field_rule_field_lines (fname ftype : string) :
  emit_field (fname, ftype)
  = field_rule SPECIAL COMPARABLE EXTERNAL structs maps tab
      ("a." +:+ fname) ("b." +:+ fname) ftype.
Proof.
  unfold field_lines, field_rule. by destruct (startswith ftype "*").
Qed.

(** C4, as amended. Let [base] be a type text that is no slice and no
    inline map, and that is a generated composite or map alias or has no
    equality method.  A field of type [*base] is emitted as the
    nil-symmetry test on the two pointers (one side nil and the other not
    returns false), then, under [if a.F != nil], one test on [*a.F] and
    [*b.F]: the call of the generated function for a composite or alias,
    [reflect.DeepEqual] for an external-opaque name, and [!=] otherwise
    (so for [base] a pointer type itself).  When [base] is no pointer
    type, a field of type [base] is emitted as the same test on [a.F] and
    [b.F]. *)
Theorem pointer_field_nil_symmetry_then_base_rule (fname base : string) :
  startswith base "[]" = false → startswith base "map[" = false →
  ((in_dict base maps || in_dict base structs) = true
   ∨ SPECIAL !! base = None) →
  let test (a b : string) : string :=
    if in_dict base maps || in_dict base structs then
      "if !" +:+ base +:+ "Equal(" +:+ a +:+ ", " +:+ b
        +:+ ") { return false }"
    else if negb (in_list base COMPARABLE) && in_list base EXTERNAL then
      "if !reflect.DeepEqual(" +:+ a +:+ ", " +:+ b +:+ ") { return false }"
    else
      "if " +:+ a +:+ " != " +:+ b +:+ " { return false }" in
  emit_field (fname, "*" +:+ base)
  = [ tab +:+ "if (a." +:+ fname +:+ " == nil) != (b." +:+ fname
        +:+ " == nil) { return false }";
      tab +:+ "if a." +:+ fname +:+ " != nil {";
      tab +:+ tab +:+ test ("*a." +:+ fname) ("*b." +:+ fname);
      tab +:+ "}" ]
  ∧ (startswith base "*" = false →
     emit_field (fname, base)
     = [ tab +:+ test ("a." +:+ fname) ("b." +:+ fname) ]).
Proof.
  intros Hslice Hmap Hclass test. subst test.
  assert (∀ indent a b,
    emit_compare indent a b base
    = [ indent +:+
        (if in_dict base maps || in_dict base structs then
           "if !" +:+ base +:+ "Equal(" +:+ a +:+ ", " +:+ b
             +:+ ") { return false }"
         else if negb (in_list base COMPARABLE) && in_list base EXTERNAL then
           "if !reflect.DeepEqual(" +:+ a +:+ ", " +:+ b
             +:+ ") { return false }"
         else
           "if " +:+ a +:+ " != " +:+ b +:+ " { return false }") ]) as Hcmp.
  { intros indent a b. unfold compare_lines. rewrite Hslice, Hmap.
    unfold scalar_lines.
    destruct (in_dict base maps), (in_dict base structs); cbn [orb] in *;
      try reflexivity.
    destruct Hclass as [?| ->]; [done|].
    by destruct (in_list base COMPARABLE), (in_list base EXTERNAL). }
  unfold field_lines. split.
  - change ("*" +:+ base) with (String "*" base).
    assert (startswith (String "*" base) "*" = true) as ->.
    { unfold startswith. simpl. by destruct base. }
    cbn [slice_from]. rewrite Hcmp. cbn [app]. by rewrite append_assoc.
  - intros ->. by rewrite Hcmp.
Qed.

End EmitterClaims.

(** The amended C4 at the [Owner *Pod] field of the scenario. *)
Lemma pointer_field_nil_symmetry_then_base_rule_witness :
  field_lines SPECIAL_TYPES COMPARABLE_TYPES EXTERNAL_TYPES pod_structs ∅
    ("Owner", "*" +:+ "Pod")
  = [ tab +:+ "if (a." +:+ "Owner" +:+ " == nil) != (b." +:+ "Owner"
        +:+ " == nil) { return false }";
      tab +:+ "if a." +:+ "Owner" +:+ " != nil {";
      tab +:+ tab +:+ "if !PodEqual(*a.Owner, *b.Owner) { return false }";
      tab +:+ "}" ]
  ∧ field_lines SPECIAL_TYPES COMPARABLE_TYPES EXTERNAL_TYPES pod_structs ∅
      ("Owner", "Pod")
    = [ tab +:+ "if !PodEqual(a.Owner, b.Owner) { return false }" ].
Proof.
  pose proof (pointer_field_nil_symmetry_then_base_rule SPECIAL_TYPES
                COMPARABLE_TYPES EXTERNAL_TYPES pod_structs ∅ "Owner" "Pod"
                eq_refl eq_refl (or_introl eq_refl)) as [Hptr Hval].
  split; [exact Hptr|exact (Hval eq_refl)].
Defined.

(** C4, as stated, fails at a pointer to a pointer.  Only one pointer
    marker is stripped: the field [Owner **Pod] is emitted as the
    nil-symmetry test and [!=] on the two pointers [*a.Owner] and
    [*b.Owner], which is not the rule set of a field of the underlying
    type [*Pod] (its own nil-symmetry test and a call of [PodEqual]). *)
Lemma double_pointer_compared_by_address :
  field_lines SPECIAL_TYPES COMPARABLE_TYPES EXTERNAL_TYPES pod_structs ∅
    ("Owner", "**Pod")
  = [ tab +:+ "if (a.Owner == nil) != (b.Owner == nil) { return false }";
      tab +:+ "if a.Owner != nil {";
      tab +:+ tab +:+ "if *a.Owner != *b.Owner { return false }";
      tab +:+ "}" ]
  ∧ field_rule SPECIAL_TYPES COMPARABLE_TYPES EXTERNAL_TYPES pod_structs ∅
      (tab +:+ tab) "*a.Owner" "*b.Owner" "*Pod"
    = [ tab +:+ tab +:+ "if (*a.Owner == nil) != (*b.Owner == nil) { return false }";
        tab +:+ tab +:+ "if *a.Owner != nil {";
        tab +:+ tab +:+ tab +:+ "if !PodEqual(**a.Owner, **b.Owner) { return false }";
        tab +:+ tab +:+ "}" ]
  ∧ ¬ pointer_uses_base_rule SPECIAL_TYPES COMPARABLE_TYPES EXTERNAL_TYPES
        pod_structs ∅ "Owner" "*Pod".
Proof.
  split_and!; [vm_compute; reflexivity..|].
  intros H. vm_compute in H. discriminate H.
Qed.

(** Where the base type is compared through a selector or an index (an
    equality method, a slice, an inline map), the pointer marker is
    pasted in front of the operand without parentheses. *)
Lemma pointer_marker_pasted_in_front :
  field_lines SPECIAL_TYPES COMPARABLE_TYPES EXTERNAL_TYPES ∅ ∅
    ("Limit", "*resource.Quantity")
  = [ tab +:+ "if (a.Limit == nil) != (b.Limit == nil) { return false }";
      tab +:+ "if a.Limit != nil {";
      tab +:+ tab +:+ "if !*a.Limit.Equal(*b.Limit) { return false }";
      tab +:+ "}" ]
  ∧ field_lines SPECIAL_TYPES COMPARABLE_TYPES EXTERNAL_TYPES ∅ ∅
      ("Names", "*[]string")
    = [ tab +:+ "if (a.Names == nil) != (b.Names == nil) { return false }";
        tab +:+ "if a.Names != nil {";
        tab +:+ tab +:+ "if len(*a.Names) != len(*b.Names) { return false }";
        tab +:+ tab +:+ "for i := range *a.Names {";
        tab +:+ tab +:+ tab +:+ "if *a.Names[i] != *b.Names[i] { return false }";
        tab +:+ tab +:+ "}";
        tab +:+ "}" ]
  ∧ field_lines SPECIAL_TYPES COMPARABLE_TYPES EXTERNAL_TYPES ∅ ∅
      ("Labels", "*map[string]string")
    = [ tab +:+ "if (a.Labels == nil) != (b.Labels == nil) { return false }";
        tab +:+ "if a.Labels != nil {";
        tab +:+ tab +:+ "if len(*a.Labels) != len(*b.Labels) { return false }";
        tab +:+ tab +:+ "for k, v := range *a.Labels {";
        tab +:+ tab +:+ tab +:+ "if v2, ok := *b.Labels[k]; !ok || v != v2 { return false }";
        tab +:+ tab +:+ "}";
        tab +:+ "}" ].
Proof. split_and!; vm_compute; reflexivity. Qed.

(** * The scenario and the whole generator *)

(** The declaration of the scenario written on one line is an opener
    without field lines: the fields are read one per line. *)
Lemma pod_on_one_line :
  Parser.parse_types
    "type Pod struct { Name string; Labels map[string]string; Owner *Pod }"
  = ({["Pod" := []]}, ∅).
Proof. vm_compute. reflexivity. Qed.

(** C7. On the Pod declaration with root [Pod], the parser yields the one
    composite with its three fields, VisitationOrder is [Pod], and the
    function printed compares [Name] with [!=], [Labels] by count and by
    key and value, and [Owner] by nil-symmetry and a call of [PodEqual] on
    the dereferenced values. *)
Theorem pod_scenario :
  Parser.parse_types pod_text = (pod_structs, ∅)
  ∧ visitation_order pod_structs ∅ "Pod" = ["Pod"]
  ∧ equal_method_lines SPECIAL_TYPES COMPARABLE_TYPES EXTERNAL_TYPES
      pod_structs ∅ "Pod" pod_fields = pod_equal_lines
  ∧ Generator.generate SPECIAL_TYPES COMPARABLE_TYPES EXTERNAL_TYPES pod_text "Pod"
    = Generator.stdout (Generator.header_lines ++ [join nl pod_equal_lines; ""]).
Proof. split_and!; vm_compute; reflexivity. Qed.

(** * Further properties of the text primitives and of the parser *)

Import Shape.

Section TextFacts.

(** The classes of the patterns are disjoint where the patterns rely on it. *)
Lemma word_not_space c : is_word c = true → is_space c = false.
Proof. destruct c as [[] [] [] [] [] [] [] []]; vm_compute; congruence. Qed.

Lemma word_is_type_char c : is_word c = true → is_type_char c = true.
Proof. destruct c as [[] [] [] [] [] [] [] []]; vm_compute; congruence. Qed.

Lemma type_char_not_space c : is_type_char c = true → is_space c = false.
Proof. destruct c as [[] [] [] [] [] [] [] []]; vm_compute; congruence. Qed.

Lemma type_char_not_newline c : is_type_char c = true → not_newline c = true.
Proof. destruct c as [[] [] [] [] [] [] [] []]; vm_compute; congruence. Qed.

Lemma word_or_dot_is_type_char c : is_word_or_dot c = true → is_type_char c = true.
Proof. destruct c as [[] [] [] [] [] [] [] []]; vm_compute; congruence. Qed.

Lemma all_chars_impl (p q : ascii → bool) s :
  (∀ c, p c = true → q c = true) → all_chars p s = true → all_chars q s = true.
Proof.
  intros Hpq. induction s as [|c s IH]; [done|]. simpl.
  rewrite !andb_true_iff. intros [? ?]. auto.
Qed.

Lemma token_all_chars p s : token p s = true → all_chars p s = true.
Proof. by destruct s. Qed.

Lemma token_impl (p q : ascii → bool) s :
  (∀ c, p c = true → q c = true) → token p s = true → token q s = true.
Proof. destruct s; [done|]. apply all_chars_impl. Qed.

Lemma all_chars_app p s1 s2 :
  all_chars p (s1 +:+ s2) = all_chars p s1 && all_chars p s2.
Proof.
  induction s1 as [|c s1 IH]; [done|].
  change (String c s1 +:+ s2) with (String c (s1 +:+ s2)). simpl.
  by rewrite IH, andb_assoc.
Qed.

(** A greedy class consumes exactly a prefix of the class that is followed
    by the end or by a character outside the class. *)
Lemma span_app p a b :
  all_chars p a = true → stops p b = true → span p (a +:+ b) = (a, b).
Proof.
  intros Ha Hb. induction a as [|c a IH].
  - destruct b as [|d b]; [done|]. simpl in *.
    change ("" +:+ String d b) with (String d b). simpl.
    by apply negb_true_iff in Hb as ->.
  - change (String c a +:+ b) with (String c (a +:+ b)). simpl in *.
    apply andb_true_iff in Ha as [-> Ha]. by rewrite IH.
Qed.

Lemma span1_app p a b :
  token p a = true → stops p b = true → span1 p (a +:+ b) = Some (a, b).
Proof.
  intros Ha Hb. unfold span1. rewrite span_app by (by apply token_all_chars || done).
  by destruct a.
Qed.

Lemma span_spec p s a b :
  span p s = (a, b) → s = a +:+ b ∧ all_chars p a = true ∧ stops p b = true.
Proof.
  revert a b. induction s as [|c s IH]; intros a b; simpl.
  - by intros [= <- <-].
  - destruct (p c) eqn:Hc.
    + destruct (span p s) as [a' b'] eqn:Hs. intros [= <- <-].
      destruct (IH _ _ eq_refl) as (-> & Ha & Hb). simpl. by rewrite Hc, Ha.
    + intros [= <- <-]. simpl. by rewrite Hc.
Qed.

Lemma span1_spec p s a b :
  span1 p s = Some (a, b) → s = a +:+ b ∧ token p a = true ∧ stops p b = true.
Proof.
  unfold span1. destruct (span p s) as [a' b'] eqn:Hs.
  destruct (span_spec _ _ _ _ Hs) as (-> & Ha & Hb).
  destruct a'; [done|]. by intros [= <- <-].
Qed.

Lemma literal_app p s : literal p (p +:+ s) = Some s.
Proof.
  induction p as [|c p IH]; [done|].
  change (String c p +:+ s) with (String c (p +:+ s)). simpl.
  by rewrite Ascii.eqb_refl.
Qed.

End TextFacts.

Section SplitFacts.

Lemma append_nil_r s : s +:+ "" = s.
Proof.
  induction s as [|c s IH]; [done|].
  change (String c s +:+ "") with (String c (s +:+ "")). by rewrite IH.
Qed.

Lemma rev_app_append s1 s2 : String.rev_app s1 s2 = String.rev s1 +:+ s2.
Proof.
  unfold String.rev. revert s2. induction s1 as [|c s1 IH]; intros s2; [done|].
  simpl. rewrite (IH (String c s2)), (IH (String c "")).
  by rewrite append_assoc.
Qed.

Lemma rev_app_rev_app a cur x :
  String.rev_app (String.rev_app a cur) x = String.rev_app cur (a +:+ x).
Proof.
  revert cur. induction a as [|c a IH]; intros cur; [done|].
  simpl. by rewrite IH.
Qed.

Lemma split_go_nonempty sep cur s : split_go sep cur s ≠ [].
Proof.
  revert cur. induction s as [|c s IH]; intros cur; simpl; [done|].
  destruct (Ascii.eqb c sep); [done|apply IH].
Qed.

Lemma join_cons sep x l : l ≠ [] → join sep (x :: l) = x +:+ sep +:+ join sep l.
Proof. by destruct l. Qed.

Lemma join_split_go cur s :
  join nl (split_go "010" cur s) = String.rev cur +:+ s.
Proof.
  revert cur. induction s as [|c s IH]; intros cur; simpl.
  - by rewrite append_nil_r.
  - destruct (Ascii.eqb c "010") eqn:Hc.
    + apply Ascii.eqb_eq in Hc as ->.
      rewrite join_cons by apply split_go_nonempty. by rewrite IH.
    + rewrite IH. unfold String.rev. simpl.
      by rewrite (rev_app_append cur (String c "")), append_assoc.
Qed.

Lemma rev_app_all_chars p a b :
  all_chars p a = true → all_chars p b = true →
  all_chars p (String.rev_app a b) = true.
Proof.
  revert b. induction a as [|c a IH]; intros b Ha Hb; [done|]. simpl in *.
  apply andb_true_iff in Ha as [Hc Ha]. apply IH; [done|]. simpl.
  by rewrite Hc.
Qed.

Lemma split_go_lines cur s :
  all_chars not_newline cur = true →
  Forall (λ l, all_chars not_newline l = true) (split_go "010" cur s).
Proof.
  revert cur. induction s as [|c s IH]; intros cur Hcur; simpl.
  - apply Forall_singleton. by apply rev_app_all_chars.
  - destruct (Ascii.eqb c "010") eqn:Hc.
    + apply Forall_cons. split; [by apply rev_app_all_chars|by apply IH].
    + apply IH. simpl. unfold not_newline at 1. by rewrite Hc.
Qed.

Lemma split_go_app cur a s :
  all_chars not_newline a = true →
  split_go "010" cur (a +:+ s) = split_go "010" (String.rev_app a cur) s.
Proof.
  revert cur. induction a as [|c a IH]; intros cur Ha; [done|].
  change (String c a +:+ s) with (String c (a +:+ s)). simpl in *.
  apply andb_true_iff in Ha as [Hc Ha]. unfold not_newline in Hc.
  apply negb_true_iff in Hc as ->. by apply IH.
Qed.

Lemma rev_rev_app a : String.rev (String.rev_app a "") = a.
Proof.
  unfold String.rev. rewrite rev_app_rev_app. simpl. apply append_nil_r.
Qed.

Lemma split_join lines :
  lines ≠ [] → Forall (λ l, all_chars not_newline l = true) lines →
  split_char "010" (join nl lines) = lines.
Proof.
  unfold split_char. induction lines as [|l lines IH]; [done|].
  intros _ [Hl Hlines]%Forall_cons. destruct lines as [|l' lines].
  - simpl. rewrite <- (append_nil_r l) at 1. rewrite split_go_app by done.
    simpl. by rewrite rev_rev_app.
  - rewrite join_cons by done. rewrite split_go_app by done.
    change (nl +:+ join nl (l' :: lines))
      with (String "010" (join nl (l' :: lines))).
    cbn [split_go]. rewrite Ascii.eqb_refl, rev_rev_app. f_equal.
    by apply IH.
Qed.

(** X1. Splitting a text at the newlines and joining the lines again gives
    the text back, and no line holds a newline; a non-empty list of lines
    without newline is what its joined text splits into. *)
Theorem split_join_round_trip :
  (∀ s, join nl (split_char "010" s) = s
        ∧ Forall (λ l, all_chars not_newline l = true) (split_char "010" s))
  ∧ (∀ lines, lines ≠ [] →
       Forall (λ l, all_chars not_newline l = true) lines →
       split_char "010" (join nl lines) = lines).
Proof.
  split.
  - intros s. split; [apply (join_split_go "" s)|by apply split_go_lines].
  - apply split_join.
Qed.

End SplitFacts.

Section CommentFacts.

Lemma before_comment_clean s : no_comment (before_comment s) = true.
Proof.
  induction s as [|c s IH]; [done|]. simpl.
  destruct s as [|d s]; [done|].
  destruct (Ascii.eqb c "/" && Ascii.eqb d "/")%char eqn:Hcd; [done|].
  revert IH. simpl. destruct s as [|e s].
  - intros _. by rewrite Hcd.
  - destruct (Ascii.eqb d "/" && Ascii.eqb e "/")%char eqn:Hde.
    + done.
    + intros IH. by rewrite Hcd.
Qed.

Lemma before_comment_prefix s :
  ∃ rest, s = before_comment s +:+ rest
          ∧ (rest = "" ∨ startswith rest "//" = true).
Proof.
  induction s as [|c s IH]; [exists ""; auto|]. simpl.
  destruct s as [|d s]; [exists ""; auto|].
  destruct (Ascii.eqb c "/" && Ascii.eqb d "/")%char eqn:Hcd.
  - apply andb_true_iff in Hcd as [->%Ascii.eqb_eq ->%Ascii.eqb_eq].
    exists (String "/" (String "/" s)). split; [done|]. right.
    unfold startswith. simpl. by destruct s.
  - destruct IH as (rest & IH & Hrest). exists rest. split; [|done].
    change (String c (before_comment (String d s)) +:+ rest)
      with (String c (before_comment (String d s) +:+ rest)).
    by rewrite <- IH.
Qed.

Lemma before_comment_id s : no_comment s = true → before_comment s = s.
Proof.
  induction s as [|c s IH]; [done|]. simpl.
  destruct s as [|d s]; [done|].
  intros [Hcd Hs]%andb_true_iff. apply negb_true_iff in Hcd as ->.
  by rewrite IH.
Qed.

(** X2. Stripping the comment keeps the part of the line before the first
    comment marker: what is cut off is empty or starts with the marker,
    what is kept holds no marker, and a line without marker is kept
    whole. *)
Theorem before_comment_strips (line : string) :
  (∃ rest, line = before_comment line +:+ rest
           ∧ (rest = "" ∨ startswith rest "//" = true))
  ∧ no_comment (before_comment line) = true
  ∧ (no_comment line = true → before_comment line = line).
Proof.
  split_and!; [apply before_comment_prefix|apply before_comment_clean
              |apply before_comment_id].
Qed.

End CommentFacts.

Section PatternFacts.

Lemma stops_token_app (p q : ascii → bool) a b :
  (∀ c, p c = true → q c = false) → token p a = true →
  stops q (a +:+ b) = true.
Proof.
  intros Hpq Ha. destruct a as [|c a]; [done|]. simpl in Ha.
  apply andb_true_iff in Ha as [Hc _].
  change (String c a +:+ b) with (String c (a +:+ b)). simpl.
  by rewrite (Hpq c Hc).
Qed.

Lemma literal_none p s : startswith s p = false → literal p s = None.
Proof.
  unfold startswith. revert s. induction p as [|a p IH]; intros s;
    [by destruct s|].
  destruct s as [|c s]; [by intros _|]. simpl.
  destruct (ascii_dec a c) as [->|Hne].
  - rewrite Ascii.eqb_refl. apply IH.
  - intros _. by apply Ascii.eqb_neq in Hne as ->.
Qed.

(** What the patterns capture are tokens of their classes. *)
Lemma type_head_spec line name rest :
  Pattern.type_head line = Some (name, rest) → token is_word name = true.
Proof.
  unfold Pattern.type_head. intros H.
  apply bind_Some in H as (r0 & _ & H).
  apply bind_Some in H as ([w1 r1] & _ & H).
  apply bind_Some in H as ([n r2] & Hn & H).
  apply bind_Some in H as ([w2 r3] & _ & H).
  apply span1_spec in Hn as (_ & Hn & _). by simplify_eq.
Qed.

Lemma struct_start_re_spec line name :
  Pattern.struct_start_re line = Some name → token is_word name = true.
Proof.
  unfold Pattern.struct_start_re. intros H.
  apply bind_Some in H as ([n r3] & Hh & H).
  apply bind_Some in H as (r4 & _ & H).
  apply bind_Some in H as ([w r5] & _ & H).
  apply bind_Some in H as (r6 & _ & H).
  simplify_eq. by eapply type_head_spec.
Qed.

Lemma inline_map_re_spec s k v :
  Pattern.inline_map_re s = Some (k, v) →
  token is_word_or_dot k = true ∧ token is_word_or_dot v = true.
Proof.
  unfold Pattern.inline_map_re. intros H.
  apply bind_Some in H as (r0 & _ & H).
  apply bind_Some in H as ([k' r1] & Hk & H).
  apply bind_Some in H as (r2 & _ & H).
  apply bind_Some in H as ([v' r3] & Hv & H).
  apply span1_spec in Hk as (_ & Hk & _).
  apply span1_spec in Hv as (_ & Hv & _). by simplify_eq.
Qed.

Lemma map_type_re_spec line name k v :
  Pattern.map_type_re line = Some (name, (k, v)) →
  token is_word name = true
  ∧ token is_word_or_dot k = true ∧ token is_word_or_dot v = true.
Proof.
  unfold Pattern.map_type_re. intros H.
  apply bind_Some in H as ([n r3] & Hh & H).
  apply bind_Some in H as ([k' v'] & Hkv & H). simplify_eq.
  split; [by eapply type_head_spec|by eapply inline_map_re_spec].
Qed.

Lemma field_re_spec line fn ft :
  Pattern.field_re line = Some (fn, ft) →
  token is_word fn = true ∧ token is_type_char ft = true.
Proof.
  unfold Pattern.field_re. intros H.
  apply bind_Some in H as ([w1 r1] & _ & H).
  apply bind_Some in H as ([n r2] & Hn & H).
  apply bind_Some in H as ([w2 r3] & _ & H).
  apply bind_Some in H as ([t r4] & Ht & H).
  apply span1_spec in Hn as (_ & Hn & _).
  apply span1_spec in Ht as (_ & Ht & _). by simplify_eq.
Qed.

End PatternFacts.

Section ParserShape.

Import Parser.

Lemma registry_ok_initial : registry_ok ∅ ∅.
Proof.
  split; [intros ?? H|intros ??? H]; by rewrite lookup_empty in H.
Qed.

Lemma parse_line_ok st line :
  registry_ok (structs st) (maps st) →
  registry_ok (structs (parse_line st line)) (maps (parse_line st line)).
Proof.
  intros [Hs Hm]. unfold parse_line.
  destruct (Pattern.map_type_re line) as [[name [k v]]|] eqn:Hmap.
  { apply map_type_re_spec in Hmap as (Hn & Hk & Hv).
    split; [done|]. simpl. intros name' k' v'.
    rewrite lookup_insert. case_decide; [|by apply Hm].
    by intros [= <- <-]; subst. }
  destruct (Pattern.struct_start_re line) as [name|] eqn:Hstart.
  { apply struct_start_re_spec in Hstart.
    split; [|done]. simpl. intros name' fields.
    rewrite lookup_insert. case_decide; [|by apply Hs].
    intros [= <-]; subst. split; [done|]. by intros f ?%elem_of_nil. }
  destruct (current_struct st) as [cur|]; [|done].
  destruct (Pattern.end_re line); [done|].
  destruct (Pattern.field_re (before_comment line)) as [[fn ft]|] eqn:Hf;
    [|done].
  apply field_re_spec in Hf as [Hfn Hft].
  split; [|done]. simpl. intros name' fields.
  rewrite lookup_alter. case_decide; [|by apply Hs]. subst name'.
  destruct (structs st !! cur) as [l|] eqn:Hl; [|done].
  intros [= <-]. destruct (Hs _ _ Hl) as [Hcur Hfields].
  split; [done|]. intros f [Hin|Hin]%elem_of_app; [auto|].
  apply list_elem_of_singleton in Hin as ->. auto.
Qed.

Lemma parse_lines_ok lines st :
  registry_ok (structs st) (maps st) →
  registry_ok (structs (foldl parse_line st lines))
              (maps (foldl parse_line st lines)).
Proof.
  revert st. induction lines as [|l lines IH]; intros st Hst; [done|].
  simpl. by apply IH, parse_line_ok.
Qed.

Lemma word_token_no_dot s :
  token is_word s = true → ∀ a b, s ≠ a +:+ "." +:+ b.
Proof.
  intros Hs a b ->. apply token_all_chars in Hs.
  rewrite all_chars_app, andb_true_iff in Hs. destruct Hs as [_ Hs].
  change ("." +:+ b) with (String "." b) in Hs. done.
Qed.

(** X3. Whatever the ASCII text, the registries hold only what the
    patterns capture: the names of composites and aliases and the names
    of fields are non-empty words, field types are non-empty and free of
    white space and backquote, alias key and value types are non-empty
    and made of word characters and dots.  So no declared name is an
    entry of one of the three override tables, whose names all hold a
    dot. *)
Theorem parse_types_registry_shape (content : string) :
  ascii_text content = true →
  let '(structs, maps) := parse_types content in
  registry_ok structs maps
  ∧ ∀ name, in_dict name structs = true ∨ in_dict name maps = true →
      SPECIAL_TYPES !! name = None
      ∧ in_list name COMPARABLE_TYPES = false
      ∧ in_list name EXTERNAL_TYPES = false.
Proof.
  intros _. unfold parse_types.
  pose proof (parse_lines_ok (split_char "010" content) initial
                registry_ok_initial) as Hok.
  split; [done|]. intros name Hname.
  assert (token is_word name = true) as Hw.
  { destruct Hok as [Hs Hm]. unfold in_dict in Hname.
    destruct Hname as [H|H].
    - destruct (structs _ !! name) as [fs|] eqn:E; [|done]. by apply (Hs _ _ E).
    - destruct (maps _ !! name) as [[k v]|] eqn:E; [|done]. by apply (Hm _ _ _ E). }
  pose proof (word_token_no_dot _ Hw) as Hdot.
  split_and!.
  - unfold SPECIAL_TYPES. rewrite !lookup_insert_ne, lookup_empty; [done|..].
    + intros H. by apply (Hdot "resource" "Quantity").
    + intros H. by apply (Hdot "metav1" "Time").
    + intros H. by apply (Hdot "metav1" "MicroTime").
  - apply bool_decide_eq_false. unfold COMPARABLE_TYPES.
    rewrite list_elem_of_singleton. intros ->. by apply (Hdot "intstr" "IntOrString").
  - apply bool_decide_eq_false. unfold EXTERNAL_TYPES.
    rewrite !elem_of_cons, elem_of_nil. intros [->|[->|[->|[->|[]]]]].
    + by apply (Hdot "metav1" "ObjectMeta").
    + by apply (Hdot "metav1" "LabelSelector").
    + by apply (Hdot "metav1" "OwnerReference").
    + by apply (Hdot "metav1" "NamespaceSelector").
Qed.

End ParserShape.

(** The registries of the Pod declaration. *)
Lemma parse_types_registry_shape_witness :
  let '(structs, maps) := Parser.parse_types pod_text in
  registry_ok structs maps
  ∧ ∀ name, in_dict name structs = true ∨ in_dict name maps = true →
      SPECIAL_TYPES !! name = None
      ∧ in_list name COMPARABLE_TYPES = false
      ∧ in_list name EXTERNAL_TYPES = false.
Proof.
  exact (parse_types_registry_shape pod_text eq_refl).
Defined.

Section RoundTrip.

Import Parser.

Lemma space_token : token is_space " " = true.
Proof. reflexivity. Qed.

Lemma type_head_decl name rest :
  token is_word name = true →
  Pattern.type_head ("type " +:+ name +:+ " " +:+ rest) = Some (name, rest)
  ∨ stops is_space rest = false.
Proof.
  intros Hn. destruct (stops is_space rest) eqn:Hrest; [left|by right].
  unfold Pattern.type_head.
  change ("type " +:+ name +:+ " " +:+ rest)
    with ("type" +:+ " " +:+ name +:+ " " +:+ rest).
  rewrite literal_app. simpl.
  rewrite (span1_app is_space " ") by
    (done || by apply (stops_token_app is_word); [apply word_not_space|]).
  simpl. rewrite (span1_app is_word name) by done. simpl.
  by rewrite (span1_app is_space " ").
Qed.

Lemma map_type_re_struct name :
  token is_word name = true →
  Pattern.map_type_re ("type " +:+ name +:+ " struct {") = None.
Proof.
  intros Hn. unfold Pattern.map_type_re.
  change " struct {" with (" " +:+ "struct {").
  destruct (type_head_decl name "struct {" Hn) as [->|H]; done.
Qed.

Lemma struct_start_re_decl name :
  token is_word name = true →
  Pattern.struct_start_re ("type " +:+ name +:+ " struct {") = Some name.
Proof.
  intros Hn. unfold Pattern.struct_start_re.
  change " struct {" with (" " +:+ "struct {").
  destruct (type_head_decl name "struct {" Hn) as [->|H]; done.
Qed.

Lemma span1_all p a : token p a = true → span1 p a = Some (a, "").
Proof.
  intros Ha. pose proof (span1_app p a "" Ha eq_refl) as H.
  by rewrite append_nil_r in H.
Qed.

Lemma inline_map_re_decl k v :
  token is_word_or_dot k = true → token is_word_or_dot v = true →
  Pattern.inline_map_re ("map[" +:+ k +:+ "]" +:+ v) = Some (k, v).
Proof.
  intros Hk Hv. unfold Pattern.inline_map_re.
  rewrite literal_app. simpl.
  rewrite (span1_app is_word_or_dot k) by done. simpl.
  change ("" +:+ v) with v. by rewrite span1_all.
Qed.

Lemma map_type_re_decl name k v :
  token is_word name = true →
  token is_word_or_dot k = true → token is_word_or_dot v = true →
  Pattern.map_type_re (map_decl name k v) = Some (name, (k, v)).
Proof.
  intros Hn Hk Hv. unfold Pattern.map_type_re, map_decl.
  change (" map[" +:+ k +:+ "]" +:+ v) with (" " +:+ "map[" +:+ k +:+ "]" +:+ v).
  destruct (type_head_decl name ("map[" +:+ k +:+ "]" +:+ v) Hn) as [->|H];
    [|done].
  simpl. by rewrite inline_map_re_decl.
Qed.


Lemma stops_token (p q : ascii → bool) a :
  (∀ c, p c = true → q c = false) → token p a = true → stops q a = true.
Proof.
  intros Hpq Ha. rewrite <- (append_nil_r a). by eapply stops_token_app.
Qed.

Lemma word_no_slash c : is_word c = true → no_slash c = true.
Proof. destruct c as [[] [] [] [] [] [] [] []]; vm_compute; congruence. Qed.

Lemma no_comment_app a b :
  all_chars no_slash a = true → no_comment b = true →
  no_comment (a +:+ b) = true.
Proof.
  intros Ha Hb. induction a as [|c a IH]; [done|].
  simpl in Ha. apply andb_true_iff in Ha as [Hc Ha]. specialize (IH Ha).
  change (String c a +:+ b) with (String c (a +:+ b)). simpl.
  destruct (a +:+ b) as [|d r]; [done|].
  unfold no_slash in Hc. apply negb_true_iff in Hc as ->. by rewrite IH.
Qed.

Section FieldLine.

Context (f : string * string) (Hf : field_ok f = true).

Lemma field_ok_parts :
  token is_word f.1 = true ∧ token is_type_char f.2 = true
  ∧ no_comment f.2 = true.
Proof.
  unfold field_ok in Hf. by repeat apply andb_true_iff in Hf as [Hf ?].
Qed.

Lemma field_decl_no_type : literal "type" (field_decl f) = None.
Proof. done. Qed.

Lemma field_decl_patterns :
  Pattern.map_type_re (field_decl f) = None
  ∧ Pattern.struct_start_re (field_decl f) = None
  ∧ Pattern.end_re (field_decl f) = false.
Proof.
  unfold Pattern.map_type_re, Pattern.struct_start_re, Pattern.type_head.
  by rewrite field_decl_no_type.
Qed.

Lemma field_decl_no_comment : before_comment (field_decl f) = field_decl f.
Proof.
  destruct field_ok_parts as (Hn & Ht & Hc).
  apply before_comment_id. unfold field_decl.
  apply no_comment_app; [done|].
  apply no_comment_app.
  { eapply all_chars_impl; [apply word_no_slash|by apply token_all_chars]. }
  by apply no_comment_app.
Qed.

Lemma field_re_decl : Pattern.field_re (field_decl f) = Some f.
Proof.
  destruct field_ok_parts as (Hn & Ht & Hc).
  unfold Pattern.field_re, field_decl.
  rewrite (span1_app is_space tab) by
    (done || by apply (stops_token_app is_word); [apply word_not_space|]).
  simpl. rewrite (span1_app is_word f.1) by done. simpl.
  rewrite (span1_app is_space " ") by
    (done || by apply (stops_token is_type_char); [apply type_char_not_space|]).
  simpl. rewrite span1_all by done. simpl. by destruct f.
Qed.

Lemma parse_line_field st cur :
  current_struct st = Some cur →
  parse_line st (field_decl f)
  = PState (alter (λ l, l ++ [f]) cur (structs st)) (maps st) (Some cur).
Proof.
  intros Hcur. unfold parse_line.
  destruct field_decl_patterns as (-> & -> & ->).
  rewrite Hcur, field_decl_no_comment, field_re_decl. by destruct f.
Qed.

End FieldLine.

Lemma parse_fields S M name acc fields :
  forallb field_ok fields = true →
  foldl parse_line (PState (<[name := acc]> S) M (Some name))
    (field_decl <$> fields)
  = PState (<[name := acc ++ fields]> S) M (Some name).
Proof.
  revert acc. induction fields as [|f fields IH]; intros acc Hok.
  - by rewrite app_nil_r.
  - simpl in Hok. apply andb_true_iff in Hok as [Hf Hok]. csimpl.
    rewrite (parse_line_field f Hf _ name) by done. simpl.
    rewrite alter_insert_eq, IH by done. by rewrite <- app_assoc.
Qed.

(** A composite declaration, one field per line, is read as its name and
    its fields in order, whatever was read before; the previous entry of
    the name, if any, is replaced. *)
Lemma parse_struct_decl st name fields :
  token is_word name = true → forallb field_ok fields = true →
  foldl parse_line st (struct_decl name fields)
  = PState (<[name := fields]> (structs st)) (maps st) None.
Proof.
  intros Hn Hok. unfold struct_decl. simpl. rewrite foldl_app.
  assert (parse_line st ("type " +:+ name +:+ " struct {")
          = PState (<[name := []]> (structs st)) (maps st) (Some name)) as ->.
  { unfold parse_line.
    by rewrite map_type_re_struct, struct_start_re_decl. }
  by rewrite parse_fields.
Qed.

Lemma parse_map_decl st name k v :
  token is_word name = true →
  token is_word_or_dot k = true → token is_word_or_dot v = true →
  parse_line st (map_decl name k v)
  = PState (structs st) (<[name := (k, v)]> (maps st)) (current_struct st).
Proof.
  intros Hn Hk Hv. unfold parse_line. by rewrite map_type_re_decl.
Qed.

Lemma parse_decls ds r :
  forallb decl_ok ds = true →
  foldl parse_line (PState r.1 r.2 None) (concat (decl_lines <$> ds))
  = PState (foldl declare r ds).1 (foldl declare r ds).2 None.
Proof.
  revert r. induction ds as [|d ds IH]; intros r Hok; [done|].
  simpl in Hok. apply andb_true_iff in Hok as [Hd Hok].
  csimpl. rewrite foldl_app.
  assert (foldl parse_line (PState r.1 r.2 None) (decl_lines d)
          = PState (declare r d).1 (declare r d).2 None) as ->.
  { destruct d as [name fields|name k v]; cbn [decl_lines declare decl_ok] in *.
    - apply andb_true_iff in Hd as [Hn Hf]. by rewrite parse_struct_decl.
    - repeat apply andb_true_iff in Hd as [Hd ?]. simpl.
      by rewrite parse_map_decl. }
  by apply IH.
Qed.

End RoundTrip.

Section RoundTripText.

Import Parser.

Lemma token_not_newline p s :
  (∀ c, p c = true → is_type_char c = true) → token p s = true →
  all_chars not_newline s = true.
Proof.
  intros Hp Hs. apply token_all_chars in Hs.
  eapply all_chars_impl; [|done]. intros c Hc. by apply type_char_not_newline, Hp.
Qed.

Lemma decl_lines_no_newline d :
  decl_ok d = true →
  Forall (λ l, all_chars not_newline l = true) (decl_lines d).
Proof.
  destruct d as [name fields|name k v]; cbn [decl_ok decl_lines].
  - intros [Hn Hf]%andb_true_iff. unfold struct_decl.
    apply Forall_cons. split.
    { rewrite !all_chars_app.
      by rewrite (token_not_newline is_word name word_is_type_char Hn). }
    apply Forall_app. split; [|by apply Forall_singleton].
    apply Forall_fmap, Forall_forall. intros f Hin.
    assert (field_ok f = true) as Hok.
    { rewrite forallb_forall in Hf. by apply Hf, list_elem_of_In. }
    destruct (field_ok_parts f Hok) as (Hfn & Hft & _).
    simpl. unfold field_decl. rewrite !all_chars_app.
    rewrite (token_not_newline is_word _ word_is_type_char Hfn).
    by rewrite (token_not_newline is_type_char f.2 (λ c H, H) Hft).
  - intros [[Hn Hk]%andb_true_iff Hv]%andb_true_iff.
    apply Forall_singleton. unfold map_decl. rewrite !all_chars_app.
    rewrite (token_not_newline is_word name word_is_type_char Hn).
    rewrite (token_not_newline is_word_or_dot k word_or_dot_is_type_char Hk).
    by rewrite (token_not_newline is_word_or_dot v word_or_dot_is_type_char Hv).
Qed.

Lemma decls_lines_no_newline ds :
  forallb decl_ok ds = true →
  Forall (λ l, all_chars not_newline l = true) (concat (decl_lines <$> ds)).
Proof.
  induction ds as [|d ds IH]; [by constructor|].
  simpl. intros [Hd Hok]%andb_true_iff. csimpl.
  apply Forall_app. split; [by apply decl_lines_no_newline|by apply IH].
Qed.

(** X4. Reading back declarations.  An ASCII text made of well-formed
    declarations (composites written one field per line, map aliases on
    one line), with or without a final newline, is parsed to exactly the
    registries the declarations stand for: every composite with its
    fields in order, every alias with its key and value types, a later
    declaration of a name replacing an earlier one. *)
Theorem parse_types_reads_declarations (ds : list decl) :
  ascii_text (join nl (concat (decl_lines <$> ds))) = true →
  forallb decl_ok ds = true →
  parse_types (join nl (concat (decl_lines <$> ds))) = registry_of ds
  ∧ parse_types (join nl (concat (decl_lines <$> ds) ++ [""])) = registry_of ds.
Proof.
  intros _ Hok. pose proof (decls_lines_no_newline ds Hok) as Hnl.
  pose proof (parse_decls ds (∅, ∅) Hok) as Hparse.
  change (PState (∅, ∅).1 (∅, ∅).2 None) with initial in Hparse.
  fold (registry_of ds) in Hparse. unfold parse_types. split.
  - destruct (decide (concat (decl_lines <$> ds) = [])) as [Hnil|Hne].
    + rewrite Hnil in Hparse |- *. cbn [foldl] in Hparse.
      change (foldl parse_line initial (split_char "010" (join nl [])))
        with initial.
      rewrite Hparse. by destruct (registry_of ds).
    + rewrite split_join by done. rewrite Hparse. by destruct (registry_of ds).
  - rewrite split_join.
    + rewrite foldl_app, Hparse. simpl. by destruct (registry_of ds).
    + by destruct (concat (decl_lines <$> ds)).
    + apply Forall_app. split; [done|by apply Forall_singleton].
Qed.

End RoundTripText.

(** The round trip on [sample_decls]. *)
Lemma parse_types_reads_declarations_witness :
  Parser.parse_types (join nl (concat (decl_lines <$> sample_decls)))
  = registry_of sample_decls.
Proof.
  exact (proj1 (parse_types_reads_declarations sample_decls eq_refl eq_refl)).
Defined.

Section Skipped.

Import Parser.

Lemma parse_line_no_type line :
  startswith line "type" = false → parse_line initial line = initial.
Proof.
  intros H%literal_none. unfold parse_line.
  unfold Pattern.map_type_re, Pattern.struct_start_re, Pattern.type_head.
  by rewrite H.
Qed.

(** X5. A text none of whose lines starts with [type] declares nothing:
    both registries are empty (the lines are skipped without error). *)
Theorem parse_types_without_declaration (content : string) :
  Forall (λ l, startswith l "type" = false) (split_char "010" content) →
  parse_types content = (∅, ∅).
Proof.
  intros H. unfold parse_types.
  assert (foldl parse_line initial (split_char "010" content) = initial) as ->;
    [|done].
  induction H as [|l lines Hl _ IH]; [done|].
  simpl. by rewrite parse_line_no_type.
Qed.

(** X6. An ASCII map-alias line whose value type is missing or starts
    with a character that is no word character and no dot (a pointer or
    slice marker, say) is no declaration for the parser: it changes
    nothing, inside a composite or outside. *)
Theorem parse_line_skips_alias_of_wrapped_value
    (st : pstate) (name k v : string) :
  ascii_text (map_decl name k v) = true →
  token is_word name = true → token is_word_or_dot k = true →
  stops is_word_or_dot v = true →
  parse_line st (map_decl name k v) = st.
Proof.
  intros _ Hn Hk Hv.
  assert (span1 is_word_or_dot v = None) as Hspan.
  { unfold span1. destruct v as [|c v]; [done|]. simpl in *.
    by apply negb_true_iff in Hv as ->. }
  assert (Pattern.inline_map_re ("map[" +:+ k +:+ "]" +:+ v) = None) as Hinl.
  { unfold Pattern.inline_map_re. rewrite literal_app. simpl.
    rewrite (span1_app is_word_or_dot k) by done. simpl.
    change ("" +:+ v) with v. by rewrite Hspan. }
  unfold parse_line, map_decl, Pattern.map_type_re, Pattern.struct_start_re.
  change (" map[" +:+ k +:+ "]" +:+ v) with (" " +:+ "map[" +:+ k +:+ "]" +:+ v).
  destruct (type_head_decl name ("map[" +:+ k +:+ "]" +:+ v) Hn) as [->|H];
    [|done].
  simpl. rewrite Hinl. simpl.
  destruct (current_struct st) as [cur|] eqn:Hcur; [|done].
  simpl. by destruct st; simplify_eq/=.
Qed.

End Skipped.

(** An alias of pointers is skipped. *)
Lemma parse_line_skips_alias_of_wrapped_value_witness :
  Parser.parse_line Parser.initial (map_decl "Pods" "string" "*Pod")
  = Parser.initial.
Proof.
  exact (parse_line_skips_alias_of_wrapped_value Parser.initial
           "Pods" "string" "*Pod" eq_refl eq_refl eq_refl eq_refl).
Defined.

(** A text of comments and blank lines. *)
Lemma parse_types_without_declaration_witness :
  Parser.parse_types ("// no declaration here" +:+ nl +:+ nl +:+ "package v1")
  = (∅, ∅).
Proof.
  apply parse_types_without_declaration.
  repeat constructor.
Defined.

(** * Further properties of the closure and of the output *)

Section ClosureMore.

Import Graph Trace.
Context (structs : structs_t) (maps : maps_t) (root : string).

Lemma add_new_prefix acc l : acc `prefix_of` foldl add_new acc l.
Proof.
  revert acc. induction l as [|x l IH]; intros acc; [done|]. simpl.
  etrans; [|apply IH]. unfold add_new. case_bool_decide; [done|].
  by apply prefix_app_r.
Qed.

(** X7. The root is the first name of VisitationOrder, defined or not. *)
Theorem visitation_order_starts_with_root :
  ∃ rest, visitation_order structs maps root = root :: rest.
Proof.
  rewrite visitation_order_discovered. unfold first_occurrences. cbn [foldl].
  assert (add_new [] root = [root]) as ->.
  { unfold add_new. by rewrite bool_decide_eq_false_2 by apply not_elem_of_nil. }
  destruct (add_new_prefix [root]
              (discovered structs maps (enough_fuel structs maps root)
                 (start root))) as [rest ->].
  by exists rest.
Qed.

Lemma undefined_targets name :
  defined structs maps name = false → targets structs maps name = [].
Proof.
  unfold defined, in_dict, targets.
  destruct (structs !! name); [done|]. by destruct (maps !! name) as [[??]|].
Qed.

Lemma visitation_order_undefined_root :
  defined structs maps root = false → visitation_order structs maps root = [root].
Proof.
  intros Hd. symmetry. apply (loop_deterministic structs maps root 1).
  simpl. unfold step at 1. simpl.
  rewrite bool_decide_eq_false_2 by apply not_elem_of_empty.
  rewrite expand_spec, undefined_targets by done. done.
Qed.

(** X8. A function is printed for exactly the defined names that the root
    refers to, directly or through other names: a declared type that the
    root does not reach is left out, and the printed strings are the
    header and, for each such name, its function and an empty string. *)
Theorem emitted_names_are_the_reachable_defined
    (SPECIAL : gmap string string) (COMPARABLE EXTERNAL : list string) :
  let order := visitation_order structs maps root in
  (∀ x, x ∈ Generator.emitted_names structs maps order
        ↔ rtc (refers structs maps) root x ∧ defined structs maps x = true)
  ∧ NoDup (Generator.emitted_names structs maps order)
  ∧ length (Generator.printed SPECIAL COMPARABLE EXTERNAL structs maps order)
    = 8 + 2 * length (Generator.emitted_names structs maps order).
Proof.
  intros order. subst order. split_and!.
  - intros x. unfold Generator.emitted_names.
    by rewrite list_elem_of_filter, visitation_order_reach, (comm (∧)).
  - apply NoDup_filter, visitation_order_nodup.
  - rewrite printed_emitted, length_app.
    change (length Generator.header_lines) with 8. f_equal.
    assert (∀ l, Forall (λ n, defined structs maps n = true) l →
      length (concat (Generator.emit_one SPECIAL COMPARABLE EXTERNAL structs maps <$> l))
      = 2 * length l) as H.
    { induction 1 as [|n l Hn Hl IH]; [done|]. csimpl.
      destruct (emit_one_defined structs maps SPECIAL COMPARABLE EXTERNAL n Hn)
        as [text ->].
      simpl. rewrite IH. lia. }
    apply H, Forall_forall. intros n Hn.
    by apply list_elem_of_filter in Hn as [Hn _].
Qed.

End ClosureMore.

(** X9. When the root has no definition in the text, VisitationOrder is the
    root alone and the output is the header and nothing else; so does
    [main] on a text that does not declare PodSpec. *)
Theorem undefined_root_prints_header_only
    (SPECIAL : gmap string string) (COMPARABLE EXTERNAL : list string)
    (content root : string) :
  Graph.defined (Parser.parse_types content).1 (Parser.parse_types content).2
    root = false →
  Graph.visitation_order (Parser.parse_types content).1
    (Parser.parse_types content).2 root = [root]
  ∧ Generator.generate SPECIAL COMPARABLE EXTERNAL content root
    = Generator.stdout Generator.header_lines.
Proof.
  intros Hd. unfold Generator.generate.
  destruct (Parser.parse_types content) as [structs maps]. simpl in *.
  rewrite visitation_order_undefined_root by done. split; [done|].
  unfold Generator.printed. csimpl.
  by rewrite emit_one_undefined.
Qed.

(** [main] on a text that declares Pod only. *)
Lemma undefined_root_prints_header_only_witness :
  Generator.main pod_text = Generator.stdout Generator.header_lines.
Proof.
  exact (proj2 (undefined_root_prints_header_only SPECIAL_TYPES COMPARABLE_TYPES
                  EXTERNAL_TYPES pod_text "PodSpec" eq_refl)).
Defined.

(** * Further properties of the emitters *)

Section Calls.

Import Graph.

Lemma prefix_cons a p c s :
  String.prefix (String a p) (String c s)
  = if ascii_dec a c then String.prefix p s else false.
Proof. done. Qed.

Lemma startswith_star s :
  startswith s "*" = true → s = "*" +:+ slice_from 1 s.
Proof.
  unfold startswith. destruct s as [|c s]; [done|]. rewrite prefix_cons.
  by destruct (ascii_dec "*" c) as [<-|].
Qed.

Lemma startswith_slice s :
  startswith s "[]" = true → s = "[]" +:+ slice_from 2 s.
Proof.
  unfold startswith. destruct s as [|c [|d s]]; [done| |].
  - rewrite prefix_cons. by destruct (ascii_dec "[" c).
  - rewrite !prefix_cons. destruct (ascii_dec "[" c) as [<-|]; [|done].
    by destruct (ascii_dec "]" d) as [<-|].
Qed.

Lemma field_base_star s : field_base ("*" +:+ s) = field_base s.
Proof. unfold field_base. by destruct s. Qed.

Lemma field_base_slice s : field_base ("[]" +:+ s) = field_base s.
Proof. done. Qed.

Lemma word_plain c :
  is_word c = true → Ascii.eqb c "[" = false ∧ Ascii.eqb c "*" = false.
Proof. destruct c as [[] [] [] [] [] [] [] []]; vm_compute; split; congruence. Qed.

Lemma field_base_word s : all_chars is_word s = true → field_base s = s.
Proof.
  unfold field_base. intros Hs.
  assert (replace_brackets s = s) as ->.
  { induction s as [|c s IH]; [done|]. simpl in *.
    apply andb_true_iff in Hs as [Hc Hs].
    destruct (word_plain c Hc) as [-> _]. simpl.
    rewrite (IH Hs). by destruct s. }
  induction s as [|c s IH]; [done|]. simpl in *.
  apply andb_true_iff in Hs as [Hc Hs].
  destruct (word_plain c Hc) as [_ ->]. by rewrite (IH Hs).
Qed.

Context (structs : structs_t) (maps : maps_t).

(** The closure strips every pointer and slice marker, the emitter one of
    each at most: on the type the emitter calls they agree. *)
Lemma field_base_strip_star s :
  startswith s "*" = true → field_base s = field_base (slice_from 1 s).
Proof. intros H. rewrite (startswith_star _ H) at 1. apply field_base_star. Qed.

Lemma field_base_strip_slice s :
  startswith s "[]" = true → field_base s = field_base (slice_from 2 s).
Proof. intros H. by rewrite (startswith_slice _ H) at 1. Qed.

Lemma callee_field_base f T :
  callee structs maps f = Some T →
  field_base f.2 = field_base T
  ∧ (in_dict T maps = true ∨ in_dict T structs = true).
Proof.
  unfold callee. destruct f as [fname ftype]. cbn [fst snd].
  set (base_type := if startswith ftype "*" then slice_from 1 ftype else ftype).
  assert (field_base ftype = field_base base_type) as ->.
  { subst base_type. destruct (startswith ftype "*") eqn:Hp; [|done].
    by apply field_base_strip_star. }
  destruct (startswith base_type "[]") eqn:Hs.
  - rewrite (field_base_strip_slice _ Hs).
    destruct (startswith (slice_from 2 base_type) "*") eqn:He.
    + rewrite (field_base_strip_star _ He).
      destruct (in_dict _ structs) eqn:Hin; [|done]. intros [= <-]. auto.
    + destruct (in_dict _ structs) eqn:Hin; [|done]. intros [= <-]. auto.
  - destruct (startswith base_type "map["); [done|].
    destruct (in_dict base_type maps) eqn:Hm; simpl.
    { intros [= <-]. auto. }
    destruct (in_dict base_type structs) eqn:Hst; [|done].
    intros [= <-]. auto.
Qed.

Lemma callee_is_target f T :
  registry_ok structs maps → callee structs maps f = Some T →
  field_target structs maps f = Some T.
Proof.
  intros [Hs Hm] Hc. destruct (callee_field_base f T Hc) as [Hb Hin].
  assert (token is_word T = true) as HT.
  { unfold in_dict in Hin. destruct Hin as [H|H].
    - destruct (maps !! T) as [[k v]|] eqn:E; [|done]. by apply (Hm _ _ _ E).
    - destruct (structs !! T) as [fs|] eqn:E; [|done]. by apply (Hs _ _ E). }
  rewrite (field_base_word T) in Hb by (by apply token_all_chars).
  unfold field_target. rewrite Hb.
  by destruct Hin as [-> | ->]; rewrite ?orb_true_r.
Qed.

Context (SPECIAL : gmap string string) (COMPARABLE EXTERNAL : list string).

(** ** Reading the calls back from the emitted lines *)

Lemma called_tab l : called (tab +:+ l) = called l.
Proof.
  unfold called. change (tab +:+ l) with (String "009" l).
  cbn [span]. change (is_tab "009") with true. cbv iota.
  by destruct (span is_tab l).
Qed.

Lemma called_bang m : called ("if !" +:+ m) = called_after m.
Proof. reflexivity. Qed.

Lemma literal_spec p s r : literal p s = Some r → s = p +:+ r.
Proof.
  revert s. induction p as [|a p IH]; intros s; simpl.
  - by intros [= ->].
  - destruct s as [|c s]; [done|].
    destruct (Ascii.eqb a c) eqn:E; [|done].
    apply Ascii.eqb_eq in E as ->. intros H%IH.
    change (String c p +:+ r) with (String c (p +:+ r)). by rewrite H.
Qed.

Lemma rev_append a b : String.rev (a +:+ b) = String.rev b +:+ String.rev a.
Proof.
  induction a as [|c a IH]; [by rewrite append_nil_r|].
  change (String c a +:+ b) with (String c (a +:+ b)).
  unfold String.rev in *. simpl.
  rewrite (rev_app_append (a +:+ b) (String c "")).
  rewrite (rev_app_append a (String c "")).
  unfold String.rev. by rewrite IH, append_assoc.
Qed.

Lemma strip_suffix_app w suffix : strip_suffix suffix (w +:+ suffix) = Some w.
Proof.
  unfold strip_suffix. rewrite rev_append, literal_app. csimpl.
  f_equal. apply (rev_rev_app w).
Qed.

Lemma called_after_call base e r :
  all_chars is_word base = true → literal "Equal(" e = Some r →
  called_after (base +:+ e) = Some base.
Proof.
  intros Hb ->%literal_spec. unfold called_after.
  change ("Equal(" +:+ r) with ("Equal" +:+ "(" +:+ r).
  rewrite <- append_assoc.
  rewrite (span_app is_word (base +:+ "Equal") ("(" +:+ r)).
  - simpl. apply strip_suffix_app.
  - by rewrite all_chars_app, Hb.
  - done.
Qed.

Lemma dict_word {V} (d : gmap string V) k :
  (∀ name v, d !! name = Some v → token is_word name = true) →
  in_dict k d = true → all_chars is_word k = true.
Proof.
  intros Hd Hk. unfold in_dict in Hk.
  destruct (d !! k) as [v|] eqn:E; [|done].
  by eapply token_all_chars, Hd.
Qed.

Lemma elem_of_concat {A} (x : A) (ls : list (list A)) :
  x ∈ concat ls ↔ ∃ l, l ∈ ls ∧ x ∈ l.
Proof.
  induction ls as [|l ls IH]; simpl.
  - split; [by intros ?%elem_of_nil|by intros (l & ?%elem_of_nil & _)].
  - rewrite elem_of_app, IH. split.
    + intros [H|(l' & H1 & H2)].
      * exists l. split; [apply list_elem_of_here|done].
      * exists l'. split; [by apply list_elem_of_further|done].
    + intros (l' & H1 & H2). apply elem_of_cons in H1 as [->|H1]; [by left|].
      right. by exists l'.
Qed.

Section Readback.

Context (Hstructs : ∀ k, in_dict k structs = true → all_chars is_word k = true).
Context (Hmaps : ∀ k, in_dict k maps = true → all_chars is_word k = true).

(** A line that is no call of a generated function is decided by its
    first characters; the line of a call gives the name back. *)
Ltac read_line :=
  let H := fresh "Hcall" in
  intros H;
  first
    [ by vm_compute in H
    | rewrite ?append_assoc in H;
      rewrite ?called_tab, called_bang in H;
      erewrite called_after_call in H;
        [ exact H
        | first [by apply Hstructs | by apply Hmaps]
        | reflexivity ] ].

Ltac read_lines :=
  cbn [app];
  repeat (apply Forall_cons; split); [read_line..|apply Forall_nil_2].

(** Every call read back from the lines of a field is the call that
    [callee] names. *)
Lemma called_field_lines f T :
  Forall (λ line, called line = Some T → callee structs maps f = Some T)
    (field_lines SPECIAL COMPARABLE EXTERNAL structs maps f).
Proof.
  destruct f as [fname ftype].
  unfold field_lines, callee, compare_lines, slice_lines, ptr_elem_lines,
    val_elem_lines, map_lines, scalar_lines.
  cbn [fst snd]. cbv zeta.
  repeat (case_match; cbv beta iota; cbn [orb]); read_lines.
Qed.

(** The call that [callee] names is read back from a line of the field. *)
Lemma callee_called f T :
  callee structs maps f = Some T →
  Exists (λ line, called line = Some T)
    (field_lines SPECIAL COMPARABLE EXTERNAL structs maps f).
Proof.
  destruct f as [fname ftype].
  unfold field_lines, callee, compare_lines, slice_lines, ptr_elem_lines,
    val_elem_lines, map_lines, scalar_lines.
  cbn [fst snd]. cbv zeta.
  repeat (case_match; cbv beta iota; cbn [orb]);
    try match goal with H : false || false = true |- _ => by cbn in H end;
    intros [= <-]; cbn [app];
    repeat first
      [ apply Exists_cons_hd;
        rewrite ?append_assoc; rewrite ?called_tab, called_bang;
        erewrite called_after_call;
          [reflexivity|first [by apply Hstructs | by apply Hmaps]|reflexivity]
      | apply Exists_cons_tl ].
Qed.

(** The other lines of a function call nothing. *)
Lemma called_function_lines name line T :
  line ∈ function_lines SPECIAL COMPARABLE EXTERNAL structs maps name →
  called line = Some T →
  ∃ fields f, structs !! name = Some fields ∧ f ∈ fields
              ∧ callee structs maps f = Some T.
Proof.
  unfold function_lines. destruct (structs !! name) as [fields|] eqn:E.
  - unfold equal_method_lines, func_header.
    rewrite !elem_of_app, elem_of_concat.
    intros [Hl|[(l & Hl & Hin)|Hl]] Hc.
    + apply list_elem_of_singleton in Hl as ->. by vm_compute in Hc.
    + apply list_elem_of_fmap in Hl as (f & -> & Hf).
      exists fields, f. split_and!; [done..|].
      exact (proj1 (Forall_forall _ _) (called_field_lines f T) line Hin Hc).
    + apply elem_of_cons in Hl as [->|Hl]; [by vm_compute in Hc|].
      apply list_elem_of_singleton in Hl as ->. by vm_compute in Hc.
  - destruct (maps !! name) as [[k v]|]; [|by intros ?%elem_of_nil].
    unfold map_equal_lines, func_header. intros Hl Hc. exfalso.
    revert line Hl Hc.
    apply (proj1 (Forall_forall (λ line, called line = Some T → False) _)).
    repeat (case_match; cbv beta iota);
      repeat (apply Forall_cons; split);
      try apply Forall_nil_2; intros Hc; by vm_compute in Hc.
Qed.

End Readback.

End Calls.

(** X10. No call is left dangling.  On the registries parsed from any
    ASCII text and for any root: every line of a printed function that
    calls a generated function ([if !<T>Equal(...]) calls one that is
    printed too, [T] being a defined name of VisitationOrder; and the
    lines read this way are the calls the emitter makes: a field whose
    comparison calls the function of [T] has such a line. *)
Theorem called_functions_are_emitted
    (SPECIAL : gmap string string) (COMPARABLE EXTERNAL : list string)
    (content root : string) :
  ascii_text content = true →
  let structs := (Parser.parse_types content).1 in
  let maps := (Parser.parse_types content).2 in
  let order := Graph.visitation_order structs maps root in
  (∀ name line T,
     name ∈ order →
     line ∈ function_lines SPECIAL COMPARABLE EXTERNAL structs maps name →
     called line = Some T →
     T ∈ Generator.emitted_names structs maps order
     ∧ function_lines SPECIAL COMPARABLE EXTERNAL structs maps T ≠ [])
  ∧ (∀ name fields f T,
       structs !! name = Some fields → f ∈ fields →
       callee structs maps f = Some T →
       ∃ line,
         line ∈ function_lines SPECIAL COMPARABLE EXTERNAL structs maps name
         ∧ called line = Some T).
Proof.
  intros _ structs maps order.
  assert (registry_ok structs maps) as Hok.
  { apply (parse_lines_ok (split_char "010" content) Parser.initial
             registry_ok_initial). }
  assert (∀ k, in_dict k structs = true → all_chars is_word k = true) as Hs.
  { intros k. apply dict_word. intros n v Hn. by apply (proj1 Hok n v). }
  assert (∀ k, in_dict k maps = true → all_chars is_word k = true) as Hm.
  { intros k. apply dict_word. intros n [a b] Hn. by apply (proj2 Hok n a b). }
  split.
  - intros name line T Hname Hline Hcall.
    destruct (called_function_lines structs maps SPECIAL COMPARABLE EXTERNAL
                Hs Hm name line T Hline Hcall) as (fields & f & Hf & Hin & Hc).
    pose proof (callee_is_target structs maps f T Hok Hc) as Ht.
    assert (Graph.refers structs maps name T) as Href.
    { unfold Graph.refers, Graph.targets. rewrite Hf.
      apply list_elem_of_omap. by exists f. }
    pose proof (targets_defined _ _ _ _ Href) as Hd.
    split.
    + unfold Generator.emitted_names. apply list_elem_of_filter. split; [done|].
      apply visitation_order_reach. eapply rtc_r; [|done].
      by apply visitation_order_reach.
    + unfold function_lines, Graph.defined, in_dict in *.
      destruct (structs !! T) as [fs|]; [done|].
      by destruct (maps !! T) as [[a b]|].
  - intros name fields f T Hf Hin Hc.
    pose proof (callee_called structs maps SPECIAL COMPARABLE EXTERNAL
                  Hs Hm f T Hc) as Hex.
    apply Exists_exists in Hex as (line & Hline & Hcall).
    exists line. split; [|done].
    unfold function_lines. rewrite Hf. unfold equal_method_lines.
    rewrite !elem_of_app, elem_of_concat. right. left.
    exists (field_lines SPECIAL COMPARABLE EXTERNAL structs maps f).
    split; [|done]. apply list_elem_of_fmap. by exists f.
Qed.

Lemma pod_parsed_order :
  Graph.visitation_order (Parser.parse_types pod_text).1
    (Parser.parse_types pod_text).2 "Pod" = ["Pod"].
Proof. vm_compute. reflexivity. Qed.

Lemma pod_parsed_function_lines :
  function_lines SPECIAL_TYPES COMPARABLE_TYPES EXTERNAL_TYPES
    (Parser.parse_types pod_text).1 (Parser.parse_types pod_text).2 "Pod"
  = pod_equal_lines.
Proof. vm_compute. reflexivity. Qed.

(** The call of [PodEqual] in the function of the Pod declaration. *)
Lemma called_functions_are_emitted_witness :
  "Pod" ∈ Generator.emitted_names (Parser.parse_types pod_text).1
            (Parser.parse_types pod_text).2
            (Graph.visitation_order (Parser.parse_types pod_text).1
               (Parser.parse_types pod_text).2 "Pod")
  ∧ function_lines SPECIAL_TYPES COMPARABLE_TYPES EXTERNAL_TYPES
      (Parser.parse_types pod_text).1 (Parser.parse_types pod_text).2 "Pod"
    ≠ [].
Proof.
  apply (proj1 (called_functions_are_emitted SPECIAL_TYPES COMPARABLE_TYPES
                  EXTERNAL_TYPES pod_text "Pod" eq_refl)
           "Pod"
           (tab +:+ tab +:+ "if !PodEqual(*a.Owner, *b.Owner) { return false }")
           "Pod").
  - rewrite pod_parsed_order. apply list_elem_of_here.
  - rewrite pod_parsed_function_lines. unfold pod_equal_lines.
    do 8 apply list_elem_of_further. apply list_elem_of_here.
  - vm_compute. reflexivity.
Defined.

Section Braces.

Open Scope Z_scope.

Lemma depth_app a b : depth (a +:+ b) = depth a + depth b.
Proof.
  induction a as [|c a IH]; [done|].
  change (String c a +:+ b) with (String c (a +:+ b)). simpl. rewrite IH. lia.
Qed.

Lemma total_depth_app l1 l2 :
  total_depth (l1 ++ l2) = total_depth l1 + total_depth l2.
Proof.
  unfold total_depth. induction l1 as [|x l1 IH]; simpl; [done|].
  rewrite IH. lia.
Qed.

Lemma depth_join l : depth (join nl l) = total_depth l.
Proof.
  unfold total_depth. induction l as [|x l IH]; [done|].
  destruct l as [|y l]; [simpl; lia|].
  rewrite join_cons by done. rewrite !depth_app, IH. simpl. lia.
Qed.

Lemma concat_empty_cons x l :
  String.concat "" (x :: l) = x +:+ String.concat "" l.
Proof. destruct l; [by rewrite append_nil_r|done]. Qed.

Lemma depth_stdout prints : depth (Generator.stdout prints) = total_depth prints.
Proof.
  unfold Generator.stdout, total_depth.
  induction prints as [|x l IH]; [done|].
  rewrite fmap_cons, concat_empty_cons, !depth_app, IH. simpl. lia.
Qed.

Lemma word_depth s : all_chars is_word s = true → depth s = 0.
Proof.
  induction s as [|c s IH]; [done|]. simpl.
  intros [Hc Hs]%andb_true_iff. rewrite (IH Hs).
  destruct c as [[] [] [] [] [] [] [] []]; vm_compute in Hc |- *; congruence.
Qed.

Ltac depth_solve :=
  rewrite ?total_depth_app; unfold total_depth; cbn [foldr];
  rewrite ?depth_app;
  repeat match goal with
         | H : depth _ = 0 |- _ => rewrite !H; clear H
         end;
  vm_compute; reflexivity.

Context (SPECIAL : gmap string string) (COMPARABLE EXTERNAL : list string).
Context (structs : structs_t) (maps : maps_t).
Context (Hspecial : ∀ k m, SPECIAL !! k = Some m → depth m = 0).
Context (Hstructs : ∀ k, in_dict k structs = true → depth k = 0).
Context (Hmaps : ∀ k, in_dict k maps = true → depth k = 0).

Ltac depth_cases :=
  repeat first
    [ match goal with
      | |- context [if in_dict ?k structs then _ else _] =>
          let E := fresh in
          destruct (in_dict k structs) eqn:E;
          [pose proof (Hstructs _ E)|]; cbv beta iota
      | |- context [if in_dict ?k maps then _ else _] =>
          let E := fresh in
          destruct (in_dict k maps) eqn:E;
          [pose proof (Hmaps _ E)|]; cbv beta iota
      | |- context [match SPECIAL !! ?k with _ => _ end] =>
          let E := fresh in
          destruct (SPECIAL !! k) eqn:E;
          [pose proof (Hspecial _ _ E)|]; cbv beta iota
      end
    | case_match; cbv beta iota ].

Lemma ptr_elem_lines_depth indent a b elem :
  depth indent = 0 → depth a = 0 → depth b = 0 →
  total_depth (ptr_elem_lines SPECIAL COMPARABLE structs indent a b elem) = 0.
Proof. intros Hi Ha Hb. unfold ptr_elem_lines. depth_cases; depth_solve. Qed.

Lemma val_elem_lines_depth indent a b elem :
  depth indent = 0 → depth a = 0 → depth b = 0 →
  total_depth (val_elem_lines SPECIAL COMPARABLE EXTERNAL structs indent a b elem)
  = 0.
Proof. intros Hi Ha Hb. unfold val_elem_lines. depth_cases; depth_solve. Qed.

Lemma scalar_lines_depth indent a b base :
  depth indent = 0 → depth a = 0 → depth b = 0 →
  total_depth (scalar_lines SPECIAL COMPARABLE EXTERNAL structs maps indent a b base)
  = 0.
Proof. intros Hi Ha Hb. unfold scalar_lines. depth_cases; depth_solve. Qed.

Lemma map_lines_depth indent a b base :
  depth indent = 0 → depth a = 0 → depth b = 0 →
  total_depth (map_lines indent a b base) = 0.
Proof. intros Hi Ha Hb. unfold map_lines. depth_cases; depth_solve. Qed.

Lemma compare_lines_depth indent a b base :
  depth indent = 0 → depth a = 0 → depth b = 0 →
  total_depth
    (compare_lines SPECIAL COMPARABLE EXTERNAL structs maps indent a b base) = 0.
Proof.
  intros Hi Ha Hb. unfold compare_lines.
  destruct (startswith base "[]").
  - unfold slice_lines. rewrite !total_depth_app.
    assert (depth (a +:+ "[i]") = 0) as Hai by (rewrite depth_app, Ha; done).
    assert (depth (b +:+ "[i]") = 0) as Hbi by (rewrite depth_app, Hb; done).
    destruct (startswith _ "*").
    + rewrite ptr_elem_lines_depth by done. depth_solve.
    + rewrite val_elem_lines_depth by done. depth_solve.
  - destruct (startswith base "map[").
    + by apply map_lines_depth.
    + by apply scalar_lines_depth.
Qed.

Lemma field_lines_depth f :
  depth f.1 = 0 →
  total_depth (field_lines SPECIAL COMPARABLE EXTERNAL structs maps f) = 0.
Proof.
  destruct f as [fname ftype]. cbn [fst]. intros Hf. unfold field_lines.
  assert (∀ p, depth p = 0 → depth (p +:+ fname) = 0) as Hop.
  { intros p Hp. rewrite depth_app, Hp, Hf. done. }
  destruct (startswith ftype "*").
  - rewrite !total_depth_app, compare_lines_depth by (by apply Hop || done).
    depth_solve.
  - by apply compare_lines_depth; try apply Hop.
Qed.

Lemma equal_method_lines_depth name fields :
  depth name = 0 → Forall (λ f, depth f.1 = 0) fields →
  total_depth
    (equal_method_lines SPECIAL COMPARABLE EXTERNAL structs maps name fields) = 0.
Proof.
  intros Hn Hf. unfold equal_method_lines, func_header.
  rewrite !total_depth_app.
  assert (total_depth
            (concat (field_lines SPECIAL COMPARABLE EXTERNAL structs maps
                     <$> fields)) = 0) as ->.
  { induction Hf as [|f fields Hf _ IH]; [done|]. csimpl.
    by rewrite total_depth_app, field_lines_depth, IH. }
  depth_solve.
Qed.

Lemma map_equal_lines_depth name k v :
  depth name = 0 → total_depth (map_equal_lines SPECIAL name k v) = 0.
Proof.
  intros Hn. unfold map_equal_lines, func_header. depth_cases; depth_solve.
Qed.

Lemma total_depth_zero l : Forall (λ s, depth s = 0) l → total_depth l = 0.
Proof.
  unfold total_depth. induction 1 as [|x l Hx _ IH]; [done|]. simpl. lia.
Qed.

End Braces.

(** X11. Balanced braces.  Whatever the text and the root, and for any
    table of equality methods whose method names have as many opening as
    closing braces (the declared one has none), every string printed, and
    so the whole output, has as many opening as closing braces. *)
Theorem generated_text_brace_balanced
    (SPECIAL : gmap string string) (COMPARABLE EXTERNAL : list string)
    (content root : string) :
  (∀ k m, SPECIAL !! k = Some m → depth m = 0%Z) →
  Forall (λ s, depth s = 0%Z)
    (Generator.printed SPECIAL COMPARABLE EXTERNAL
       (Parser.parse_types content).1 (Parser.parse_types content).2
       (Graph.visitation_order (Parser.parse_types content).1
          (Parser.parse_types content).2 root))
  ∧ depth (Generator.generate SPECIAL COMPARABLE EXTERNAL content root) = 0%Z.
Proof.
  intros Hspecial.
  pose proof (parse_lines_ok (split_char "010" content) Parser.initial
                registry_ok_initial) as [Hs Hm].
  unfold Generator.generate.
  change (Parser.structs (foldl Parser.parse_line Parser.initial
                            (split_char "010" content)))
    with (Parser.parse_types content).1 in Hs.
  change (Parser.maps (foldl Parser.parse_line Parser.initial
                         (split_char "010" content)))
    with (Parser.parse_types content).2 in Hm.
  destruct (Parser.parse_types content) as [structs maps]. cbn [fst snd] in *.
  assert (∀ k, in_dict k structs = true → depth k = 0%Z) as Hstructs.
  { intros k Hk. unfold in_dict in Hk.
    destruct (structs !! k) as [fs|] eqn:E; [|done].
    apply word_depth, token_all_chars. by apply (Hs _ _ E). }
  assert (∀ k, in_dict k maps = true → depth k = 0%Z) as Hmaps.
  { intros k Hk. unfold in_dict in Hk.
    destruct (maps !! k) as [[a b]|] eqn:E; [|done].
    apply word_depth, token_all_chars. by apply (Hm _ _ _ E). }
  assert (Forall (λ s, depth s = 0%Z)
            (Generator.printed SPECIAL COMPARABLE EXTERNAL structs maps
               (Graph.visitation_order structs maps root))) as Hall.
  { unfold Generator.printed. apply Forall_app. split.
    { repeat constructor. }
    apply Forall_concat, Forall_fmap, Forall_forall. intros name _.
    simpl. unfold Generator.emit_one.
    destruct (structs !! name) as [fields|] eqn:E.
    - repeat constructor. unfold generate_equal_method. rewrite depth_join.
      apply equal_method_lines_depth; try done.
      + apply Hstructs. unfold in_dict. by rewrite E.
      + apply Forall_forall. intros f Hf.
        apply word_depth, token_all_chars. by apply (Hs _ _ E).
    - destruct (maps !! name) as [[k v]|] eqn:E'; [|constructor].
      repeat constructor. unfold generate_map_equal. rewrite depth_join.
      apply map_equal_lines_depth; [done|].
      apply Hmaps. unfold in_dict. by rewrite E'. }
  split; [done|]. rewrite depth_stdout. by apply total_depth_zero.
Qed.

Lemma declared_methods_braceless k m :
  SPECIAL_TYPES !! k = Some m → depth m = 0%Z.
Proof.
  unfold SPECIAL_TYPES. rewrite !lookup_insert.
  repeat case_decide; by intros [= <-] || by rewrite lookup_empty.
Qed.

(** [main] prints a brace-balanced text for the sample declarations. *)
Lemma generated_text_brace_balanced_witness :
  depth (Generator.generate SPECIAL_TYPES COMPARABLE_TYPES EXTERNAL_TYPES
           (join nl (concat (decl_lines <$> sample_decls))) "Pod") = 0%Z.
Proof.
  exact (proj2 (generated_text_brace_balanced SPECIAL_TYPES COMPARABLE_TYPES
                  EXTERNAL_TYPES _ "Pod" declared_methods_braceless)).
Defined.

Section InlineMaps.

Context (SPECIAL : gmap string string) (COMPARABLE EXTERNAL : list string).
Context (structs : structs_t) (maps : maps_t).

Lemma inline_map_re_wrapped k v :
  token is_word_or_dot k = true → stops is_word_or_dot v = true →
  Pattern.inline_map_re ("map[" +:+ k +:+ "]" +:+ v) = None.
Proof.
  intros Hk Hv. unfold Pattern.inline_map_re. rewrite literal_app. simpl.
  rewrite (span1_app is_word_or_dot k) by done. simpl.
  change ("" +:+ v) with v. unfold span1.
  destruct v as [|c v]; [done|]. simpl in *.
  by apply negb_true_iff in Hv as ->.
Qed.

Lemma inline_map_re_named k v :
  token is_word_or_dot k = true → stops is_word_or_dot v = false →
  is_Some (Pattern.inline_map_re ("map[" +:+ k +:+ "]" +:+ v)).
Proof.
  intros Hk Hv. unfold Pattern.inline_map_re. rewrite literal_app. simpl.
  rewrite (span1_app is_word_or_dot k) by done. simpl.
  change ("" +:+ v) with v. unfold span1.
  destruct v as [|c v]; simpl in Hv; [done|]. simpl.
  apply negb_false_iff in Hv as ->.
  destruct (span is_word_or_dot v). simpl. eauto.
Qed.

Lemma startswith_app p s : startswith (p +:+ s) p = true.
Proof.
  unfold startswith. induction p as [|a p IH]; [by destruct s|].
  change (String a p +:+ s) with (String a (p +:+ s)). rewrite prefix_cons.
  by destruct (ascii_dec a a).
Qed.

Lemma map_not_slice s : startswith ("map[" +:+ s) "[]" = false.
Proof.
  unfold startswith. change ("map[" +:+ s) with (String "m" ("ap[" +:+ s)).
  rewrite prefix_cons. by destruct (ascii_dec "[" "m").
Qed.

(** X12. An inline map field [map[K]V] written in ASCII.  When [V]
    starts with a word character or a dot, the field is compared by
    entry count and then entry by entry with [!=]; this includes a nested
    [map[...]] value.  When [V] is missing or starts with anything else
    (a pointer or slice marker), the whole field is compared with
    [reflect.DeepEqual]. *)
Theorem inline_map_field_lines (indent a_val b_val k v : string) :
  ascii_text ("map[" +:+ k +:+ "]" +:+ v) = true →
  token is_word_or_dot k = true →
  compare_lines SPECIAL COMPARABLE EXTERNAL structs maps indent a_val b_val
    ("map[" +:+ k +:+ "]" +:+ v)
  = if stops is_word_or_dot v then
      [ indent +:+ "if !reflect.DeepEqual(" +:+ a_val +:+ ", " +:+ b_val
          +:+ ") { return false }" ]
    else
      [ indent +:+ "if len(" +:+ a_val +:+ ") != len(" +:+ b_val
          +:+ ") { return false }";
        indent +:+ "for k, v := range " +:+ a_val +:+ " {";
        indent +:+ tab +:+ "if v2, ok := " +:+ b_val
          +:+ "[k]; !ok || v != v2 { return false }";
        indent +:+ "}" ].
Proof.
  intros _ Hk. unfold compare_lines.
  rewrite map_not_slice, startswith_app. unfold map_lines.
  destruct (stops is_word_or_dot v) eqn:Hv.
  - by rewrite inline_map_re_wrapped.
  - destruct (inline_map_re_named k v Hk Hv) as [[k' v'] ->]. done.
Qed.

(** X13. No field is skipped: the lines of every field start with a test
    that returns false, whatever its type text. *)
Theorem every_field_is_compared (f : string * string) :
  ∃ pre rest,
    field_lines SPECIAL COMPARABLE EXTERNAL structs maps f
    = (pre +:+ " { return false }") :: rest.
Proof.
  assert (∀ indent a b base, ∃ pre rest,
    compare_lines SPECIAL COMPARABLE EXTERNAL structs maps indent a b base
    = (pre +:+ ret_false) :: rest) as Hcmp.
  { intros indent a b base.
    unfold compare_lines, slice_lines, map_lines, scalar_lines.
    repeat (case_match; cbv beta iota);
      cbn [app]; rewrite <- ?append_assoc; by eexists _, _. }
  destruct f as [fname ftype]. unfold field_lines.
  destruct (startswith ftype "*"); [|apply Hcmp].
  cbn [app]. rewrite <- ?append_assoc. by eexists _, _.
Qed.

End InlineMaps.

(** The inline maps of strings, of slices and of maps. *)
Lemma inline_map_field_lines_witness :
  compare_lines SPECIAL_TYPES COMPARABLE_TYPES EXTERNAL_TYPES ∅ ∅ tab "a.M" "b.M"
    ("map[" +:+ "string" +:+ "]" +:+ "[]string")
  = [ tab +:+ "if !reflect.DeepEqual(" +:+ "a.M" +:+ ", " +:+ "b.M"
        +:+ ") { return false }" ].
Proof.
  exact (inline_map_field_lines SPECIAL_TYPES COMPARABLE_TYPES EXTERNAL_TYPES ∅ ∅
           tab "a.M" "b.M" "string" "[]string" eq_refl eq_refl).
Defined.

Section Headers.

Lemma string_length_app a b :
  String.length (a +:+ b) = String.length a + String.length b.
Proof.
  induction a as [|c a IH]; [done|].
  change (String c a +:+ b) with (String c (a +:+ b)). simpl. by rewrite IH.
Qed.

Lemma app_inj_length a b x y :
  a +:+ x = b +:+ y → String.length a = String.length b → a = b.
Proof.
  revert b. induction a as [|c a IH]; intros [|d b]; try done.
  change (String c a +:+ x) with (String c (a +:+ x)).
  change (String d b +:+ y) with (String d (b +:+ y)).
  intros [= -> H] [= Hl]. f_equal. by apply IH.
Qed.

Lemma func_header_inj n m : func_header n = func_header m → n = m.
Proof.
  unfold func_header. intros H. apply (inj (String.app "func ")) in H.
  pose proof (f_equal String.length H) as Hl.
  rewrite !string_length_app in Hl. simpl in Hl.
  eapply app_inj_length; [done|lia].
Qed.

Context (SPECIAL : gmap string string) (COMPARABLE EXTERNAL : list string).
Context (structs : structs_t) (maps : maps_t) (root : string).

(** X14. No function is defined twice and none without a declaration: the
    header lines of the printed functions are pairwise different, each
    printed function starts with the header line of its name, and there
    are at most as many functions as declared names. *)
Theorem printed_functions_are_distinct :
  let names :=
    Generator.emitted_names structs maps
      (Graph.visitation_order structs maps root) in
  NoDup (func_header <$> names)
  ∧ (∀ n, n ∈ names →
       ∃ body, Generator.emit_one SPECIAL COMPARABLE EXTERNAL structs maps n
               = [func_header n +:+ nl +:+ body; ""])
  ∧ length names ≤ size (dom structs ∪ dom maps).
Proof.
  intros names.
  assert (NoDup names) as Hnd.
  { apply NoDup_filter, visitation_order_nodup. }
  split_and!.
  - apply NoDup_fmap_2; [|done]. intros n m. apply func_header_inj.
  - intros n Hn. apply list_elem_of_filter in Hn as [Hn _].
    unfold Graph.defined, in_dict in Hn. unfold Generator.emit_one.
    destruct (structs !! n) as [fields|].
    + eexists. unfold generate_equal_method, equal_method_lines.
      cbn [app]. by rewrite join_cons by by destruct (concat _).
    + destruct (maps !! n) as [[k v]|]; [|done].
      eexists. unfold generate_map_equal, map_equal_lines.
      by rewrite join_cons.
  - rewrite <- (size_list_to_set (C := gset string) names) by done.
    apply subseteq_size. intros n Hn%elem_of_list_to_set.
    apply list_elem_of_filter in Hn as [Hn _].
    apply orb_true_iff in Hn as [Hn|Hn]; apply in_dict_true in Hn;
      apply elem_of_union; auto.
Qed.

End Headers.

Section SkippedLines.

Import Parser.

Lemma span1_stops p s : stops p s = true → span1 p s = None.
Proof.
  unfold span1. destruct s as [|c s]; [done|]. simpl.
  by intros ->%negb_true_iff.
Qed.

(** X15. A composite opener needs white space between [struct] and the
    brace: [type N struct{] is no declaration for the parser and changes
    nothing, inside a composite or outside. *)
Theorem parse_line_skips_opener_without_space
    (st : pstate) (name rest : string) :
  token is_word name = true →
  parse_line st ("type " +:+ name +:+ " struct{" +:+ rest) = st.
Proof.
  intros Hn. unfold parse_line, Pattern.map_type_re, Pattern.struct_start_re.
  change (" struct{" +:+ rest) with (" " +:+ "struct{" +:+ rest).
  destruct (type_head_decl name ("struct{" +:+ rest) Hn) as [->|H]; [|done].
  simpl.
  destruct (current_struct st) as [cur|] eqn:Hcur; [|done].
  simpl. by destruct st; simplify_eq/=.
Qed.

(** X16. An ASCII line inside a composite that holds a single name,
    alone or followed directly by a dot, a comma or a tag, adds no field:
    an embedded field is skipped. *)
Theorem field_re_skips_embedded (ws name ws' rest : string) :
  ascii_text (ws +:+ name +:+ ws' +:+ rest) = true →
  token is_space ws = true → token is_word name = true →
  all_chars is_space ws' = true →
  stops is_space rest = true →
  (if ws' is "" then stops is_word rest else stops is_type_char rest) = true →
  Pattern.field_re (ws +:+ name +:+ ws' +:+ rest) = None.
Proof.
  intros _ Hws Hn Hws' Hrest Hstop. unfold Pattern.field_re.
  rewrite (span1_app is_space ws) by
    (done || by apply (stops_token_app is_word); [apply word_not_space|]).
  simpl. destruct ws' as [|c ws'].
  - change ("" +:+ rest) with rest.
    rewrite (span1_app is_word name) by done. simpl.
    by rewrite span1_stops.
  - assert (stops is_word (String c ws' +:+ rest) = true) as Hw.
    { change (String c ws' +:+ rest) with (String c (ws' +:+ rest)). simpl.
      simpl in Hws'. apply andb_true_iff in Hws' as [Hc _].
      apply negb_true_iff. destruct (is_word c) eqn:E; [|done].
      by rewrite (word_not_space c E) in Hc. }
    rewrite (span1_app is_word name) by done. simpl.
    rewrite (span1_app is_space (String c ws')) by done. simpl.
    by rewrite span1_stops.
Qed.

End SkippedLines.

(** An embedded type with a tag, as core/v1 writes them. *)
Lemma field_re_skips_embedded_witness :
  Pattern.field_re (tab +:+ "metav1" +:+ "" +:+ ".TypeMeta `json:inline`")
  = None.
Proof.
  exact (field_re_skips_embedded tab "metav1" "" ".TypeMeta `json:inline`"
           eq_refl eq_refl eq_refl eq_refl eq_refl eq_refl).
Defined.

(** An opener written without the space. *)
Lemma parse_line_skips_opener_without_space_witness :
  Parser.parse_line Parser.initial ("type " +:+ "Pod" +:+ " struct{" +:+ "")
  = Parser.initial.
Proof.
  exact (parse_line_skips_opener_without_space Parser.initial "Pod" ""
           eq_refl).
Defined.

Section FieldOrder.

Import Graph Trace.
Context (structs : structs_t) (maps : maps_t) (root : string).

Lemma add_new_unseen (seen : gset string) acc l :
  (∀ x, x ∈ seen → x ∈ acc) →
  foldl add_new acc (unseen seen l) = foldl add_new acc l.
Proof.
  revert acc. induction l as [|x l IH]; intros acc Hacc; [done|].
  unfold unseen. rewrite filter_cons. fold (unseen seen l).
  assert (∀ y, y ∈ seen → y ∈ add_new acc x) as Hacc'.
  { intros y Hy. unfold add_new. case_bool_decide; [auto|].
    apply elem_of_app. left. auto. }
  destruct (decide (x ∉ seen)) as [Hx|Hx]; simpl.
  - by apply IH.
  - apply dec_stable in Hx. rewrite IH by done.
    assert (add_new acc x = acc) as ->; [|done].
    unfold add_new. by rewrite bool_decide_eq_true_2 by auto.
Qed.

(** X17. After the root, VisitationOrder lists the types that the root
    refers to, in field order (each once, the root itself left
    out), before any type found later. *)
Theorem visitation_order_follows_root_fields :
  foldl add_new [root] (targets structs maps root)
  `prefix_of` visitation_order structs maps root.
Proof.
  rewrite visitation_order_discovered. unfold first_occurrences.
  cbn [foldl].
  assert (add_new [] root = [root]) as ->.
  { unfold add_new. by rewrite bool_decide_eq_false_2 by apply not_elem_of_nil. }
  unfold enough_fuel. cbn [discovered]. unfold step at 1. simpl.
  rewrite bool_decide_eq_false_2 by apply not_elem_of_empty.
  cbn [queue]. rewrite expand_spec. simpl. rewrite drop_0, foldl_app.
  rewrite add_new_unseen; [apply add_new_prefix|].
  intros x Hx. apply elem_of_union in Hx as [Hx|Hx].
  - by apply not_elem_of_empty in Hx.
  - apply elem_of_singleton in Hx as ->. apply list_elem_of_here.
Qed.

End FieldOrder.

(** * The claims on cycles and on repeated runs *)

Section PrintedFunctions.

Import Graph Trace.
Context (SPECIAL : gmap string string) (COMPARABLE EXTERNAL : list string).
Context (structs : structs_t) (maps : maps_t).

Local Abbreviation emit :=
  (Generator.emit_one SPECIAL COMPARABLE EXTERNAL structs maps).
Local Abbreviation text :=
  (function_text SPECIAL COMPARABLE EXTERNAL structs maps).

(** What the output loop prints for a defined name is the text of its
    function and an empty string. *)
Lemma emit_one_function_text n :
  defined structs maps n = true → emit n = [text n; ""].
Proof.
  unfold defined, in_dict, Generator.emit_one, function_text, function_lines.
  destruct (structs !! n); [done|]. by destruct (maps !! n) as [[k v]|].
Qed.

Lemma function_text_header n :
  defined structs maps n = true →
  ∃ body, text n = func_header n +:+ nl +:+ body.
Proof.
  unfold defined, in_dict, function_text, function_lines.
  destruct (structs !! n) as [fields|].
  - intros _. eexists. unfold equal_method_lines.
    cbn [app]. by rewrite join_cons by by destruct (concat _).
  - destruct (maps !! n) as [[k v]|]; [|done].
    intros _. eexists. unfold map_equal_lines. by rewrite join_cons.
Qed.

Lemma emit_one_headed n s :
  s ∈ emit n → s ≠ "" → ∃ body, s = func_header n +:+ nl +:+ body.
Proof.
  destruct (defined structs maps n) eqn:Hd.
  - rewrite emit_one_function_text by done.
    destruct (function_text_header n Hd) as [body Hb].
    intros [->|Hs]%elem_of_cons Hne; [by exists body|].
    by apply list_elem_of_singleton in Hs.
  - rewrite emit_one_undefined by done. by intros ?%elem_of_nil.
Qed.

Lemma refers_self_defined T : refers structs maps T T → defined structs maps T = true.
Proof. apply targets_defined. Qed.

Lemma emitted_for_split l1 l2 T :
  T ∉ l1 → T ∉ l2 →
  emitted_for SPECIAL COMPARABLE EXTERNAL structs maps (l1 ++ T :: l2) T
  = emit T.
Proof.
  intros H1 H2. unfold emitted_for.
  rewrite filter_app, filter_cons, decide_True by done.
  rewrite !filter_eq_absent by done. csimpl. by rewrite app_nil_r.
Qed.

Lemma stdout_app l1 l2 :
  Generator.stdout (l1 ++ l2) = Generator.stdout l1 +:+ Generator.stdout l2.
Proof.
  unfold Generator.stdout. induction l1 as [|x l1 IH]; [done|].
  cbn [app]. rewrite !fmap_cons, !concat_empty_cons, IH.
  by rewrite !append_assoc.
Qed.

Lemma stdout_functions names :
  Forall (λ n, defined structs maps n = true) names →
  Generator.stdout (concat (emit <$> names))
  = String.concat "" ((λ n, text n +:+ nl +:+ nl) <$> names).
Proof.
  induction 1 as [|n names Hn _ IH]; [done|].
  rewrite !fmap_cons. cbn [concat].
  rewrite emit_one_function_text by done.
  rewrite stdout_app, IH, concat_empty_cons. f_equal.
  unfold Generator.stdout. rewrite !fmap_cons, !concat_empty_cons.
  by rewrite append_assoc.
Qed.

End PrintedFunctions.

Section CycleClaim.

Import Graph Trace.
Context (SPECIAL : gmap string string) (COMPARABLE EXTERNAL : list string).
Context (structs : structs_t) (maps : maps_t) (root : string).

(** C5, as amended. For every registry and every root, the closure
    returns (with the bound [enough_fuel], and with the same result for
    any bound under which it returns); VisitationOrder holds no name
    twice, holds exactly the names referred to from the root, and lists
    them in the order in which they were first put on the worklist.  A
    type that refers to itself is defined.  For a defined type [T] that
    the root refers to, directly or through other types (the root itself
    included), the output loop has exactly one turn for [T], on which it
    prints the function of [T] and an empty string; what it prints on
    its other turns are functions headed by the names of those turns,
    whose header lines differ from that of [T].  For a type that the
    root does not refer to, nothing is printed. *)
Theorem visitation_order_terminates_distinct :
  let order := visitation_order structs maps root in
  let emit := Generator.emit_one SPECIAL COMPARABLE EXTERNAL structs maps in
  let text := function_text SPECIAL COMPARABLE EXTERNAL structs maps in
  loop structs maps (enough_fuel structs maps root) (start root) = Some order
  ∧ (∀ fuel o, loop structs maps fuel (start root) = Some o → o = order)
  ∧ NoDup order
  ∧ (∀ x, x ∈ order ↔ rtc (refers structs maps) root x)
  ∧ order = first_occurrences
              (root :: discovered structs maps (enough_fuel structs maps root)
                         (start root))
  ∧ (∀ T, refers structs maps T T → defined structs maps T = true)
  ∧ (∀ T, defined structs maps T = true → rtc (refers structs maps) root T →
       emitted_for SPECIAL COMPARABLE EXTERNAL structs maps order T
       = [text T; ""]
       ∧ ∃ l1 l2 body,
           order = l1 ++ T :: l2 ∧ (T ∉ l1) ∧ (T ∉ l2)
           ∧ text T = func_header T +:+ nl +:+ body
           ∧ Generator.printed SPECIAL COMPARABLE EXTERNAL structs maps order
             = Generator.header_lines ++ concat (emit <$> l1)
               ++ [text T; ""] ++ concat (emit <$> l2)
           ∧ ∀ n s, n ∈ l1 ++ l2 → s ∈ emit n → s ≠ "" →
               ∃ body', s = func_header n +:+ nl +:+ body'
                        ∧ func_header n ≠ func_header T)
  ∧ (∀ T, ¬ rtc (refers structs maps) root T →
       (T ∉ order)
       ∧ emitted_for SPECIAL COMPARABLE EXTERNAL structs maps order T = []).
Proof.
  intros order emit text. subst order emit text. split_and!.
  - apply visitation_order_run.
  - apply loop_deterministic.
  - apply visitation_order_nodup.
  - apply visitation_order_reach.
  - apply visitation_order_discovered.
  - apply refers_self_defined.
  - intros T Hd Hreach.
    apply visitation_order_reach in Hreach.
    pose proof (visitation_order_nodup structs maps root) as Hnd.
    apply list_elem_of_split in Hreach as (l1 & l2 & Hsplit).
    rewrite Hsplit in Hnd |- *.
    apply NoDup_app in Hnd as (_ & Hl1 & [Hl2 _]%NoDup_cons).
    assert (T ∉ l1) as H1.
    { intros H. apply (Hl1 T H), list_elem_of_here. }
    split.
    + rewrite emitted_for_split by done. by apply emit_one_function_text.
    + destruct (function_text_header SPECIAL COMPARABLE EXTERNAL structs maps
                  T Hd) as [body Hb].
      exists l1, l2, body. split_and!; try done.
      * unfold Generator.printed. rewrite fmap_app, concat_app. csimpl.
        by rewrite emit_one_function_text by done.
      * intros n s Hn Hs Hne.
        destruct (emit_one_headed SPECIAL COMPARABLE EXTERNAL structs maps
                    n s Hs Hne) as [body' ->].
        exists body'. split; [done|]. intros ->%func_header_inj.
        by apply elem_of_app in Hn as [Hn|Hn].
  - intros T Hreach.
    assert (T ∉ visitation_order structs maps root) as Hnot.
    { by rewrite visitation_order_reach. }
    split; [done|]. unfold emitted_for. by rewrite filter_eq_absent.
Qed.

End CycleClaim.

(** C5, as stated, fails for a root that does not reach the type: in
    [island_structs] the composite [B] refers to itself, and from the
    root [A] nothing is printed for [B]. *)
Lemma unreached_self_reference_not_emitted :
  Graph.refers island_structs ∅ "B" "B"
  ∧ Graph.visitation_order island_structs ∅ "A" = ["A"]
  ∧ ¬ self_reference_emitted_once SPECIAL_TYPES COMPARABLE_TYPES EXTERNAL_TYPES
        island_structs ∅ "A".
Proof.
  assert (Graph.refers island_structs ∅ "B" "B") as Href.
  { unfold Graph.refers.
    assert (Graph.targets island_structs ∅ "B" = ["B"]) as ->
      by (vm_compute; reflexivity).
    apply list_elem_of_here. }
  assert (Graph.visitation_order island_structs ∅ "A" = ["A"]) as Hord
    by (vm_compute; reflexivity).
  split_and!; [done..|].
  intros H. destruct (H "B" Href) as [text Ht].
  rewrite Hord in Ht. vm_compute in Ht. discriminate Ht.
Qed.

Section SeenLayout.

Import Graph.
Context (I : Seen.seen_set) (HI : Seen.lawful I).
Context (structs : structs_t) (maps : maps_t).

Lemma enqueue_field_with_same seen_w (seen_g : gset string) q f :
  (∀ x, Seen.mem I x seen_w = bool_decide (x ∈ seen_g)) →
  Seen.enqueue_field_with I structs maps seen_w q f
  = enqueue_field structs maps seen_g q f.
Proof.
  intros H. destruct f as [fn ft].
  unfold Seen.enqueue_field_with, enqueue_field.
  by rewrite H, bool_decide_not.
Qed.

Lemma expand_with_same seen_w (seen_g : gset string) q name :
  (∀ x, Seen.mem I x seen_w = bool_decide (x ∈ seen_g)) →
  Seen.expand_with I structs maps seen_w q name
  = expand structs maps seen_g q name.
Proof.
  intros H. unfold Seen.expand_with, expand.
  destruct (structs !! name) as [fields|].
  - revert q. induction fields as [|f fields IH]; intros q; [done|].
    simpl. by rewrite (enqueue_field_with_same _ seen_g) by done.
  - destruct (maps !! name) as [[k v]|]; [|done].
    by rewrite H, bool_decide_not.
Qed.

Lemma start_same root :
  Seen.same_members I (Seen.start_with I root) (start root).
Proof.
  destruct HI as [Hempty _]. split_and!; [done..|].
  intros x. simpl. rewrite Hempty. symmetry.
  apply bool_decide_eq_false, not_elem_of_empty.
Qed.

Lemma step_with_same w g :
  Seen.same_members I w g →
  match Seen.step_with I structs maps w, step structs maps g with
  | Some w', Some g' => Seen.same_members I w' g'
  | None, None => True
  | _, _ => False
  end.
Proof.
  destruct HI as [_ Hadd]. intros (Hq & Ho & Hm).
  unfold Seen.step_with, step. rewrite Hq.
  destruct (queue g) as [|name rest]; [done|].
  rewrite Hm. destruct (bool_decide (name ∈ seen g)) eqn:Hin.
  - by split_and!.
  - assert (∀ x, Seen.mem I x (Seen.add I name (Seen.wseen I w))
                 = bool_decide (x ∈ seen g ∪ {[name]})) as Hm'.
    { intros x. rewrite Hadd, Hm.
      destruct (decide (x = name)) as [->|Hne].
      - rewrite bool_decide_eq_true_2 by done. symmetry.
        apply bool_decide_eq_true. apply elem_of_union. right.
        by apply elem_of_singleton.
      - rewrite bool_decide_eq_false_2 by done. simpl.
        apply bool_decide_ext. rewrite elem_of_union, elem_of_singleton.
        tauto. }
    split_and!; simpl; [|by rewrite Ho|done].
    by apply expand_with_same.
Qed.

Lemma loop_with_same fuel w g :
  Seen.same_members I w g →
  Seen.loop_with I structs maps fuel w = loop structs maps fuel g.
Proof.
  revert w g. induction fuel as [|fuel IH]; intros w g Hs;
    pose proof (step_with_same w g Hs) as Hstep; simpl;
    destruct (Seen.step_with I structs maps w) as [w'|],
             (step structs maps g) as [g'|]; try done;
    try (by destruct Hs as (_ & -> & _)).
  by apply IH.
Qed.

(** The order does not depend on how the seen set is laid out. *)
Lemma visitation_order_with_same root :
  Seen.visitation_order_with I structs maps root
  = visitation_order structs maps root.
Proof.
  unfold Seen.visitation_order_with, visitation_order.
  by rewrite (loop_with_same _ _ (start root) (start_same root)).
Qed.

End SeenLayout.

Lemma generate_with_same (I : Seen.seen_set)
    (SPECIAL : gmap string string) (COMPARABLE EXTERNAL : list string)
    (content root : string) :
  Seen.lawful I →
  Seen.generate_with I SPECIAL COMPARABLE EXTERNAL content root
  = Generator.generate SPECIAL COMPARABLE EXTERNAL content root.
Proof.
  intros HI. unfold Seen.generate_with, Generator.generate.
  destruct (Parser.parse_types content) as [structs maps].
  by rewrite visitation_order_with_same.
Qed.

(** The implementations obey the two laws. *)
Lemma newest_first_lawful : Seen.lawful Seen.newest_first.
Proof.
  split; simpl.
  - done.
  - intros x y s. rewrite <- bool_decide_or. apply bool_decide_ext.
    apply elem_of_cons.
Qed.

Lemma oldest_first_lawful : Seen.lawful Seen.oldest_first.
Proof.
  split; simpl.
  - done.
  - intros x y s. rewrite <- bool_decide_or. apply bool_decide_ext.
    rewrite elem_of_app, list_elem_of_singleton. tauto.
Qed.

Lemma hashed_lawful hash : Seen.lawful (Seen.hashed hash).
Proof.
  split; simpl.
  - done.
  - intros x y s. destruct (decide (hash y = hash x)) as [Heq|Hne].
    + rewrite Heq, lookup_insert_eq. simpl.
      rewrite <- bool_decide_or. apply bool_decide_ext. apply elem_of_cons.
    + rewrite lookup_insert_ne by done.
      rewrite (bool_decide_eq_false_2 (x = y)); [done|]. by intros ->.
Qed.

(** C8. Two runs on the same text, root and tables print the same text,
    however each run lays out its seen set (any two implementations of
    [add] and [in], a table hashed in any way among them): the text is
    that of the generator over the model's set.  That text is the header
    followed by the functions of the defined names of VisitationOrder,
    in that order, each followed by an empty line. *)
Theorem generation_deterministic (I1 I2 : Seen.seen_set)
    (SPECIAL : gmap string string) (COMPARABLE EXTERNAL : list string)
    (content root : string) :
  Seen.lawful I1 → Seen.lawful I2 →
  Seen.generate_with I1 SPECIAL COMPARABLE EXTERNAL content root
  = Seen.generate_with I2 SPECIAL COMPARABLE EXTERNAL content root
  ∧ Seen.generate_with I1 SPECIAL COMPARABLE EXTERNAL content root
    = Generator.generate SPECIAL COMPARABLE EXTERNAL content root
  ∧ let structs := (Parser.parse_types content).1 in
    let maps := (Parser.parse_types content).2 in
    let order := Graph.visitation_order structs maps root in
    let names := Generator.emitted_names structs maps order in
    Seen.visitation_order_with I1 structs maps root = order
    ∧ sublist names order
    ∧ (∀ n, n ∈ names ↔ n ∈ order ∧ Graph.defined structs maps n = true)
    ∧ Generator.generate SPECIAL COMPARABLE EXTERNAL content root
      = Generator.stdout Generator.header_lines
        +:+ String.concat ""
              ((λ n, function_text SPECIAL COMPARABLE EXTERNAL structs maps n
                     +:+ nl +:+ nl) <$> names).
Proof.
  intros H1 H2. split_and!.
  - by rewrite !generate_with_same.
  - by apply generate_with_same.
  - unfold Generator.generate.
    destruct (Parser.parse_types content) as [structs maps]. cbn [fst snd].
    split_and!.
    + by apply visitation_order_with_same.
    + apply sublist_filter.
    + intros n. unfold Generator.emitted_names.
      rewrite list_elem_of_filter. tauto.
    + rewrite printed_emitted, stdout_app. f_equal.
      apply stdout_functions, Forall_forall. intros n Hn.
      by apply list_elem_of_filter in Hn as [Hn _].
Qed.

(** C8 on the Pod declaration, for a table hashed by length and a list. *)
Lemma generation_deterministic_witness :
  Seen.generate_with (Seen.hashed String.length)
    SPECIAL_TYPES COMPARABLE_TYPES EXTERNAL_TYPES pod_text "Pod"
  = Seen.generate_with Seen.newest_first
      SPECIAL_TYPES COMPARABLE_TYPES EXTERNAL_TYPES pod_text "Pod".
Proof.
  exact (proj1 (generation_deterministic (Seen.hashed String.length)
                  Seen.newest_first SPECIAL_TYPES COMPARABLE_TYPES
                  EXTERNAL_TYPES pod_text "Pod"
                  (hashed_lawful String.length) newest_first_lawful)).
Defined.
